(** * publish.js: daily article generation and publishing

    A shallow embedding of [src/publish.js] and the properties of its
    title derivation, its two "ensure suffix" normalisations, its error
    paths and its start-up checks.

    JavaScript strings are sequences of UTF-16 code units; they are modelled
    as lists of code units.  The built-ins the script calls ([trim], [split],
    [includes], [endsWith], [Array.prototype.join], the regular expression
    of line 85) are modelled by executable functions that follow their
    ECMAScript definitions. *)

From Stdlib Require Import List NArith Bool Lia String Ascii Arith.
From Stdlib Require Import DecimalString.
Import ListNotations.

Set Warnings "-register-all".

Local Open Scope N_scope.
Local Open Scope list_scope.

(** ** Strings *)

Module JsString.

Definition code_unit := N.
Definition jsstring := list code_unit.

(** An ASCII literal as a JavaScript string. *)
Definition lit (s : string) : jsstring :=
  map N_of_ascii (list_ascii_of_string s).

Definition LF : code_unit := 10.
Definition CR : code_unit := 13.
Definition SPACE : code_unit := 32.
Definition QUOTE : code_unit := 34.
Definition HASH : code_unit := 35.
Definition EN_DASH : code_unit := 8211.
Definition BULLET : code_unit := 8226.
Definition ELLIPSIS : code_unit := 8230.
Definition CHECK_MARK : code_unit := 10004.

(** ECMAScript LineTerminator: LF, CR, LS, PS. *)
Definition is_line_terminator (c : code_unit) : bool :=
  (c =? 10) || (c =? 13) || (c =? 8232) || (c =? 8233).

(** ECMAScript WhiteSpace: TAB, VT, FF, ZWNBSP and the space separators. *)
Definition is_white_space (c : code_unit) : bool :=
  (c =? 9) || (c =? 11) || (c =? 12) || (c =? 32) || (c =? 160) ||
  (c =? 5760) || ((8192 <=? c) && (c <=? 8202)) || (c =? 8239) ||
  (c =? 8287) || (c =? 12288) || (c =? 65279).

(** What [String.prototype.trim] strips and what [\s] matches. *)
Definition is_space (c : code_unit) : bool :=
  is_white_space c || is_line_terminator c.

(** What [.] matches (no [s] flag): anything but a line terminator. *)
Definition is_dot (c : code_unit) : bool := negb (is_line_terminator c).

Fixpoint drop_while (p : code_unit -> bool) (s : jsstring) : jsstring :=
  match s with
  | c :: s' => if p c then drop_while p s' else s
  | [] => []
  end.

Definition trim_start (s : jsstring) : jsstring := drop_while is_space s.
Definition trim_end (s : jsstring) : jsstring :=
  rev (drop_while is_space (rev s)).

(** [s.trim()] *)
Definition trim (s : jsstring) : jsstring := trim_end (trim_start s).

Fixpoint str_eqb (a b : jsstring) : bool :=
  match a, b with
  | [], [] => true
  | x :: a', y :: b' => (x =? y) && str_eqb a' b'
  | _, _ => false
  end.

Fixpoint starts_with (s p : jsstring) {struct p} : bool :=
  match p, s with
  | [], _ => true
  | x :: p', y :: s' => (x =? y) && starts_with s' p'
  | _ :: _, [] => false
  end.

(** [s.includes(p)]: [p] occurs at some position of [s]. *)
Fixpoint includes (s p : jsstring) : bool :=
  starts_with s p ||
  match s with
  | [] => false
  | _ :: s' => includes s' p
  end.

(** [s.endsWith(p)]: the last [length p] code units of [s] are [p]. *)
Definition ends_with (s p : jsstring) : bool :=
  let n := List.length s in
  let m := List.length p in
  (m <=? n)%nat && str_eqb (skipn (n - m) s) p.

(** [s.split(sep)] for a separator of one code unit: the pieces between the
    occurrences of [sep]; never an empty array. *)
Fixpoint split (sep : code_unit) (s : jsstring) : list jsstring :=
  match s with
  | [] => [[]]
  | c :: s' =>
      if c =? sep then [] :: split sep s'
      else match split sep s' with
           | piece :: pieces => (c :: piece) :: pieces
           | [] => [[c]]
           end
  end.

(** [String(n)] for a non-negative integer. *)
Definition of_N (n : N) : jsstring :=
  lit (NilEmpty.string_of_uint (N.to_uint n)).

(** [s.padStart(2, "0")] *)
Definition pad2 (s : jsstring) : jsstring :=
  match s with
  | [] => lit "00"
  | [c] => [48; c]
  | _ => s
  end.

End JsString.
Import JsString.

(** ** The regular expression of line 85

    [/^\s*#\s+(.+?)\s*$/] has no flags: [^] and [$] are the ends of the input,
    so a match can only start at index 0.  The matcher is the backtracking
    one of the language definition, written with continuations: each
    quantifier tries its alternatives in priority order and takes the first
    one on which the rest of the pattern succeeds. *)

Module Regex.

Section Matcher.
Context {R : Type}.

(** [c*], greedy: as many as possible first, then fewer. *)
Fixpoint star_greedy (p : code_unit -> bool) (s : jsstring)
    (k : jsstring -> option R) : option R :=
  match s with
  | c :: s' =>
      if p c then
        match star_greedy p s' k with
        | Some r => Some r
        | None => k s
        end
      else k s
  | [] => k s
  end.

(** [c+], greedy. *)
Definition plus_greedy (p : code_unit -> bool) (s : jsstring)
    (k : jsstring -> option R) : option R :=
  match s with
  | c :: s' => if p c then star_greedy p s' k else None
  | [] => None
  end.

(** [c*?], lazy: as few as possible first, then more.  [acc] is what the
    quantifier has consumed so far, handed to the continuation because the
    quantifier sits in a capture group. *)
Fixpoint star_lazy (p : code_unit -> bool) (acc s : jsstring)
    (k : jsstring -> jsstring -> option R) : option R :=
  match k acc s with
  | Some r => Some r
  | None =>
      match s with
      | c :: s' => if p c then star_lazy p (acc ++ [c]) s' k else None
      | [] => None
      end
  end.

(** [(c+?)], lazy, capturing. *)
Definition plus_lazy (p : code_unit -> bool) (s : jsstring)
    (k : jsstring -> jsstring -> option R) : option R :=
  match s with
  | c :: s' => if p c then star_lazy p [c] s' k else None
  | [] => None
  end.

(** A literal code unit. *)
Definition char (x : code_unit) (s : jsstring)
    (k : jsstring -> option R) : option R :=
  match s with
  | c :: s' => if c =? x then k s' else None
  | [] => None
  end.
End Matcher.

(** [$]: succeeds at the end of the input only. *)
Definition eol {R : Type} (r : R) (s : jsstring) : option R :=
  match s with
  | [] => Some r
  | _ :: _ => None
  end.

(** [/^\s*#\s+(.+?)\s*$/.exec(line)]: [Some] of capture group 1, or [None]
    for a [null] result. *)
Definition exec_heading (line : jsstring) : option jsstring :=
  star_greedy is_space line (fun s1 =>
  char HASH s1 (fun s2 =>
  plus_greedy is_space s2 (fun s3 =>
  plus_lazy is_dot s3 (fun m1 s4 =>
  star_greedy is_space s4 (fun s5 =>
  eol m1 s5))))).

End Regex.
Import Regex.

(** ** Values read from a JSON response

    [res.json()] yields a value built from [null], booleans, numbers, strings,
    arrays and objects; reading a property that is not there yields
    [undefined].  Numbers reach this script only through string conversion
    and truthiness, so a number is represented by the text [String(n)]
    gives for it. *)

Module Json.

Inductive value :=
| VUndefined
| VNull
| VBool (b : bool)
| VNum (repr : jsstring)
| VStr (s : jsstring)
| VArr (items : list value)
| VObj (fields : list (jsstring * value)).

Inductive js_error :=
| Error (message : jsstring)   (* [new Error(message)] *)
| TypeError                    (* raised by the language itself *)
| SyntaxError                  (* a body that is not JSON *)
| FetchError.                  (* [fetch] rejected: no response at all *)

Inductive result (A : Type) :=
| Ok (a : A)
| Throw (e : js_error).
Arguments Ok {A} a.
Arguments Throw {A} e.

Definition nullish (v : value) : bool :=
  match v with
  | VUndefined | VNull => true
  | _ => false
  end.

(** The own property [k] of an object. *)
Fixpoint lookup (k : jsstring) (fields : list (jsstring * value)) : value :=
  match fields with
  | [] => VUndefined
  | (k', v) :: rest => if str_eqb k' k then v else lookup k rest
  end.

Fixpoint has_key (k : jsstring) (fields : list (jsstring * value)) : bool :=
  match fields with
  | [] => false
  | (k', _) :: rest => str_eqb k' k || has_key k rest
  end.

(** [v.name] on a value that is neither [null] nor [undefined], for the names
    this script reads ([candidates], [content], [parts], [text], [url],
    [canonical_url], [id]): no built-in prototype defines them, so only an
    object can have them. *)
Definition get_field (name : jsstring) (v : value) : value :=
  match v with
  | VObj fields => lookup name fields
  | _ => VUndefined
  end.

(** [v[0]] on a value that is neither [null] nor [undefined]. *)
Definition get_index0 (v : value) : value :=
  match v with
  | VArr (x :: _) => x
  | VStr (c :: _) => VStr [c]
  | VObj fields => lookup (lit "0") fields
  | _ => VUndefined
  end.

(** [v?.name] and [v?.[0]] *)
Definition opt_field (name : jsstring) (v : value) : value :=
  if nullish v then VUndefined else get_field name v.
Definition opt_index0 (v : value) : value :=
  if nullish v then VUndefined else get_index0 v.

(** Truthiness, as [||] tests it. *)
Definition truthy (v : value) : bool :=
  match v with
  | VUndefined | VNull => false
  | VBool b => b
  | VNum repr => negb (str_eqb repr (lit "0"))
  | VStr s => negb (str_eqb s [])
  | VArr _ | VObj _ => true
  end.

(** [a || b] *)
Definition or_else (a b : value) : value := if truthy a then a else b.

(** [String(v)].  An array is its elements joined by commas, [null] and
    [undefined] elements counting as empty; an object is ["[object Object]"]
    unless an own [toString] property, which is never callable in a parsed
    value, hides the inherited method, and then the conversion throws. *)
Fixpoint to_string (v : value) : result jsstring :=
  match v with
  | VUndefined => Ok (lit "undefined")
  | VNull => Ok (lit "null")
  | VBool true => Ok (lit "true")
  | VBool false => Ok (lit "false")
  | VNum repr => Ok repr
  | VStr s => Ok s
  | VArr items =>
      (fix join_items (l : list value) : result jsstring :=
         match l with
         | [] => Ok []
         | x :: rest =>
             match (if nullish x then Ok [] else to_string x) with
             | Throw e => Throw e
             | Ok sx =>
                 match rest with
                 | [] => Ok sx
                 | _ :: _ =>
                     match join_items rest with
                     | Throw e => Throw e
                     | Ok sr => Ok (sx ++ lit "," ++ sr)
                     end
                 end
             end
         end) items
  | VObj fields =>
      if has_key (lit "toString") fields then Throw TypeError
      else Ok (lit "[object Object]")
  end.

(** [items.join(sep)] *)
Fixpoint join (sep : jsstring) (items : list value) : result jsstring :=
  match items with
  | [] => Ok []
  | x :: rest =>
      match (if nullish x then Ok [] else to_string x) with
      | Throw e => Throw e
      | Ok sx =>
          match rest with
          | [] => Ok sx
          | _ :: _ =>
              match join sep rest with
              | Throw e => Throw e
              | Ok sr => Ok (sx ++ sep ++ sr)
              end
          end
      end
  end.

(** [items.map((p) => p.text)]: reading [text] of [null] throws. *)
Fixpoint map_text (items : list value) : result (list value) :=
  match items with
  | [] => Ok []
  | p :: rest =>
      if nullish p then Throw TypeError
      else match map_text rest with
           | Throw e => Throw e
           | Ok vs => Ok (get_field (lit "text") p :: vs)
           end
  end.

End Json.
Import Json.

(** ** The script *)

(** A topic brief; [length] is absent from the three briefs of [main], and
    the parameter default of [generateArticle] fills it in. *)
Record brief := {
  role : jsstring;
  focus : jsstring;
  length : option jsstring
}.

(** What [generateArticle] returns. *)
Record article := {
  title : jsstring;
  markdown : jsstring;
  tags : list jsstring
}.

(** A response of [fetch]: the status, and what [res.text()] and
    [res.json()] resolve to ([None] when they reject). *)
Record response := {
  status : N;
  text_body : option jsstring;
  json_body : option value
}.

(** [res.ok] *)
Definition ok (res : response) : bool :=
  (200 <=? status res) && (status res <=? 299).

Inductive fetch_outcome :=
| NetworkFailure
| Replied (res : response).

(** What the process does that can be observed from outside. *)
Inductive event :=
| ConsoleLog (line : jsstring)
| ConsoleError (line : jsstring)
| ConsoleErrorThrown (e : js_error)
| GeminiRequest (prompt : jsstring) (reply : fetch_outcome)
| DevToRequest (a : article) (reply : fetch_outcome)
| Sleep (ms : N).

(** The [n]-th network call of a run is answered by [net n]. *)
Definition network := nat -> fetch_outcome.

(** Computations that may throw: given the network and the number of calls
    made so far, the result, the number of calls made by the end, and the
    events of the computation in order. *)
Definition M (A : Type) : Type :=
  network -> nat -> result A * nat * list event.

Definition ret {A} (a : A) : M A := fun _ n => (Ok a, n, []).
Definition throw {A} (e : js_error) : M A := fun _ n => (Throw e, n, []).
Definition bind {A B} (m : M A) (f : A -> M B) : M B :=
  fun net n =>
    match m net n with
    | (Ok a, n1, d1) =>
        match f a net n1 with
        | (r, n2, d2) => (r, n2, d1 ++ d2)
        end
    | (Throw e, n1, d1) => (Throw e, n1, d1)
    end.
Definition lift {A} (r : result A) : M A := fun _ n => (r, n, []).
Definition emit (e : event) : M unit := fun _ n => (Ok tt, n, [e]).

Notation "x <- m ;; k" := (bind m (fun x => k))
  (at level 61, m at next level, right associativity).
Notation "m ;; k" := (bind m (fun _ => k))
  (at level 61, right associativity).

(** [await fetch(...)], the request described by [mk]. *)
Definition fetch (mk : fetch_outcome -> event) : M response :=
  fun net n =>
    match net n with
    | NetworkFailure => (Throw FetchError, S n, [mk NetworkFailure])
    | Replied res => (Ok res, S n, [mk (Replied res)])
    end.

(** [await res.text().catch(() => "")] *)
Definition text_or_empty (res : response) : jsstring :=
  match text_body res with
  | Some t => t
  | None => []
  end.

(** [await res.json()] *)
Definition json (res : response) : M value :=
  match json_body res with
  | Some v => ret v
  | None => throw SyntaxError
  end.

Definition console_log (line : jsstring) : M unit := emit (ConsoleLog line).
Definition sleep (ms : N) : M unit := emit (Sleep ms).

(** Lines 39-60: the template literal. *)
Definition prompt (role focus length : jsstring) : jsstring :=
  List.concat (map (fun l => l ++ [LF]) [
    [];
    lit "Write an original markdown article in English on the niche:";
    [QUOTE] ++ lit "AI + Tech News and Career Advice using AI" ++ [QUOTE] ++ lit ".";
    [];
    lit "Article role/theme today: " ++ role;
    lit "Specific focus: " ++ focus;
    [];
    lit "Constraints:";
    lit "- DO NOT invent breaking news or fake stats. Prefer durable trend explainers.";
    lit "- If you reference public tools, explain real use-cases and how to try them (no affiliate links).";
    lit "- Include an outline with H2/H3 headings.";
    lit "- Add a concise intro, then 4" ++ [EN_DASH] ++ lit "6 scannable sections, and a short actionable checklist.";
    lit "- Add a " ++ [QUOTE] ++ lit "Try this today" ++ [QUOTE] ++ lit " boxed callout with 3 concrete steps.";
    lit "- Add a brief FAQ (3 questions).";
    lit "- Add a short conclusion.";
    lit "- Use clean Markdown only (no HTML).";
    lit "- Target length: " ++ length ++ lit ".";
    lit "- Add 5" ++ [EN_DASH] ++ lit "8 relevant tags (as a markdown list) at the end.";
    lit "- Title: put the title as the first markdown line starting with " ++ [QUOTE] ++ lit "# " ++ [QUOTE] ++ lit ".";
    lit "- DO NOT include YAML frontmatter.";
    []
  ]).

(** Lines 78-79: [data?.candidates?.[0]?.content?.parts] *)
Definition parts_of (data : value) : value :=
  opt_field (lit "parts")
    (opt_field (lit "content")
       (opt_index0 (opt_field (lit "candidates") data))).

(** Lines 78-80:
    [data?.candidates?.[0]?.content?.parts?.map((p) => p.text).join("\n")?.trim() || ""].
    A [null] or [undefined] link ends the chain with [undefined], hence
    the empty string; a [parts] that is there but is no array has no [map]
    to call. *)
Definition response_text (data : value) : result jsstring :=
  match parts_of data with
  | VUndefined | VNull => Ok []
  | VArr items =>
      match map_text items with
      | Throw e => Throw e
      | Ok texts =>
          match join [LF] texts with
          | Throw e => Throw e
          | Ok joined => Ok (trim joined)
          end
      end
  | _ => Throw TypeError
  end.

(** Line 84: [text.split("\n")[0] || ""] *)
Definition first_line (text : jsstring) : jsstring :=
  match split LF text with
  | line :: _ => line
  | [] => []
  end.

(** Line 83: [`AI & Tech • ${role} • ${stamp}`] *)
Definition fallback_title (stamp role : jsstring) : jsstring :=
  lit "AI & Tech " ++ [BULLET] ++ lit " " ++ role ++
  lit " " ++ [BULLET] ++ lit " " ++ stamp.

(** Line 86: [`${m[1]} (${stamp})`] *)
Definition stamped (stamp t : jsstring) : jsstring :=
  t ++ lit " (" ++ stamp ++ lit ")".

(** Line 89. *)
Definition fixed_tags : list jsstring :=
  [lit "ai"; lit "machinelearning"; lit "career"; lit "productivity";
   lit "programming"].

(** Lines 82-91: the article made from the text of the response. *)
Definition article_of_text (stamp role text : jsstring) : article :=
  let title0 := fallback_title stamp role in
  let firstLine := first_line text in
  let m := exec_heading firstLine in
  let title1 := match m with
                | Some m1 => stamped stamp m1
                | None => title0
                end in
  {| title := title1; markdown := text; tags := fixed_tags |}.

(** Line 38 and lines 39-60: the prompt for a brief, with the default of
    the [length] parameter. *)
Definition gemini_prompt (b : brief) : jsstring :=
  prompt (role b) (focus b)
    match length b with
    | Some l => l
    | None => lit "1200-1500 words"
    end.

(** Lines 38-92. *)
Definition generateArticle (stamp : jsstring) (b : brief) : M article :=
  res <- fetch (GeminiRequest (gemini_prompt b)) ;;
  if negb (ok res) then
    throw (Error (lit "Gemini error " ++ of_N (status res) ++ lit ": " ++
                  text_or_empty res))
  else
    data <- json res ;;
    text <- lift (response_text data) ;;
    ret (article_of_text stamp (role b) text).

(** Lines 99-126; [canonical_url] is [undefined] at the only call and
    [JSON.stringify] leaves it out of the payload. *)
Definition publishToDevTo (a : article) : M value :=
  res <- fetch (DevToRequest a) ;;
  if negb (ok res) then
    throw (Error (lit "dev.to publish error " ++ of_N (status res) ++
                  lit ": " ++ text_or_empty res))
  else
    data <- json res ;;
    ret data.

(** Line 156: [title.includes(stamp) ? title : `${title} (${stamp})`] *)
Definition ensure_stamp (stamp t : jsstring) : jsstring :=
  if includes t stamp then t else stamped stamp t.

(** Lines 157-158. *)
Definition footer (stamp : jsstring) : jsstring :=
  [LF; LF] ++ lit "---" ++ [LF] ++
  lit "*Auto-published via GitHub Actions " ++ [BULLET] ++
  lit " Topic: AI + Tech News & AI Career Advice " ++ [BULLET] ++
  lit " " ++ stamp ++ lit "*".

(** Line 159: [markdown.endsWith(footer) ? markdown : markdown + footer] *)
Definition ensure_footer (stamp md : jsstring) : jsstring :=
  if ends_with md (footer stamp) then md else md ++ footer stamp.

(** Lines 132-148. *)
Definition briefs : list brief := [
  {| role := lit "Weekly-style AI & Tech roundup (evergreen explainer edition)";
     focus := lit "Explain key AI trends shaping the past quarter, what they mean for developers and job seekers, and how to stay credible without chasing hype.";
     length := None |};
  {| role := lit "Career playbook using AI";
     focus := lit "A practical guide to using AI to upskill (projects, portfolios, interview prep), with reproducible workflows and prompts.";
     length := None |};
  {| role := lit "Tooling deep-dive";
     focus := lit "Compare 2" ++ [EN_DASH] ++ lit "3 free AI tools for developers (e.g., code assistants, data wrangling, docs agents). Show hands-on examples and gotchas.";
     length := None |}
].

(** Line 168: [`${post?.url || post?.canonical_url || post?.id}`] *)
Definition post_link (post : value) : result jsstring :=
  to_string (or_else (or_else (opt_field (lit "url") post)
                              (opt_field (lit "canonical_url") post))
                     (opt_field (lit "id") post)).

(** Lines 151-170: the body of the loop, for the brief of index [i]. *)
Definition iteration (stamp : jsstring) (i : nat) (b : brief) : M unit :=
  console_log (lit "Generating article " ++ of_N (N.of_nat (i + 1)) ++
               [ELLIPSIS]) ;;
  a <- generateArticle stamp b ;;
  let finalTitle := ensure_stamp stamp (title a) in
  let body := ensure_footer stamp (markdown a) in
  console_log (lit "Publishing to dev.to: " ++ [QUOTE] ++ finalTitle ++
               [QUOTE] ++ [ELLIPSIS]) ;;
  post <- publishToDevTo
            {| title := finalTitle; markdown := body; tags := tags a |} ;;
  link <- lift (post_link post) ;;
  console_log ([CHECK_MARK] ++ lit " Published: " ++ link) ;;
  sleep 2500.

(** Line 150: [for (let i = 0; i < briefs.length; i++)], from index [i]. *)
Fixpoint loop (stamp : jsstring) (i : nat) (bs : list brief) : M unit :=
  match bs with
  | [] => ret tt
  | b :: rest => iteration stamp i b ;; loop stamp (S i) rest
  end.

(** Lines 128-174. *)
Definition main (stamp : jsstring) : M unit :=
  console_log (lit "Starting daily run " ++ stamp ++ [ELLIPSIS]) ;;
  loop stamp 0 briefs ;;
  console_log (lit "All done.").

(** The process environment and the clock. *)
Record env := {
  DEVTO_API_KEY : option jsstring;
  GEMINI_API_KEY : option jsstring
}.

Record clock := {
  utc_year : N;
  utc_month : N;   (* 0 to 11, as [getUTCMonth] *)
  utc_date : N
}.

(** [!key]: the variable is unset or empty. *)
Definition missing (key : option jsstring) : bool :=
  match key with
  | None | Some [] => true
  | Some (_ :: _) => false
  end.

(** Lines 21-25. *)
Definition stamp (now : clock) : jsstring :=
  of_N (utc_year now) ++ lit "-" ++ pad2 (of_N (utc_month now + 1)) ++
  lit "-" ++ pad2 (of_N (utc_date now)).

(** The whole script: what it prints and requests, and its exit code. *)
Definition run (e : env) (now : clock) (net : network) : list event * N :=
  if missing (DEVTO_API_KEY e) then
    ([ConsoleError (lit "Missing DEVTO_API_KEY")], 1)
  else if missing (GEMINI_API_KEY e) then
    ([ConsoleError (lit "Missing GEMINI_API_KEY")], 1)
  else
    match main (stamp now) net 0%nat with
    | (Ok _, _, d) => (d, 0)
    | (Throw err, _, d) => (d ++ [ConsoleErrorThrown err], 1)
    end.

(** * Vocabulary of the properties *)

(** Every code unit of [s] satisfies [p]. *)
Definition all (p : code_unit -> bool) (s : jsstring) : Prop :=
  Forall (fun c => p c = true) s.

(** ** Lines that are markdown headings *)

(** [line] reads: white space, [#], some white space, some text [h] without
    a line terminator, white space. *)
Definition heading_split (line ws1 ws2 h ws3 : jsstring) : Prop :=
  line = ws1 ++ HASH :: ws2 ++ h ++ ws3 /\
  all is_space ws1 /\
  all is_space ws2 /\ ws2 <> [] /\
  all is_dot h /\ h <> [] /\
  all is_space ws3.

(** The line matches the heading pattern. *)
Definition matches_heading (line : jsstring) : Prop :=
  exists ws1 ws2 h ws3, heading_split line ws1 ws2 h ws3.

(** [h] is the heading text of the line: of all the ways to read the line
    as a heading, the white space after [#] is as long as possible and then
    the text is as short as possible (the greedy [\s+] and the lazy
    [.+?]). *)
Definition heading_text (line h : jsstring) : Prop :=
  exists ws1 ws2 ws3,
    heading_split line ws1 ws2 h ws3 /\
    (forall ws1' ws2' h' ws3', heading_split line ws1' ws2' h' ws3' ->
       (List.length ws2' <= List.length ws2)%nat) /\
    (forall ws1' h' ws3', heading_split line ws1' ws2 h' ws3' ->
       (List.length h <= List.length h')%nat).

(** The pattern from its capture group on, and from [\s+] on. *)
Definition match_tail (s3 : jsstring) : option jsstring :=
  plus_lazy is_dot s3 (fun m1 s4 =>
  star_greedy is_space s4 (fun s5 => eol m1 s5)).
Definition match_gap (s2 : jsstring) : option jsstring :=
  plus_greedy is_space s2 match_tail.

(** [s3] reads: some text [h] without a line terminator, white space. *)
Definition tail_split (s3 h ws3 : jsstring) : Prop :=
  s3 = h ++ ws3 /\ all is_dot h /\ h <> [] /\ all is_space ws3.

(** ** What the generation response says *)

(** Some link of [data.candidates[0].content.parts] is missing. *)
Definition lacks_parts (data : value) : Prop :=
  let candidates := get_field (lit "candidates") data in
  let first := get_index0 candidates in
  let content := get_field (lit "content") first in
  let parts := get_field (lit "parts") content in
  nullish data = true \/ nullish candidates = true \/
  nullish first = true \/ nullish content = true \/ nullish parts = true.

(** [texts] are the text fragments of the response: the [text] of every
    part of the first candidate, in order. *)
Definition fragments (data : value) (texts : list jsstring) : Prop :=
  exists items,
    parts_of data = VArr items /\
    Forall2 (fun p t => get_field (lit "text") p = VStr t) items texts.

(** The strings of [texts] with [sep] between each two. *)
Fixpoint intercalate (sep : jsstring) (texts : list jsstring) : jsstring :=
  match texts with
  | [] => []
  | [t] => t
  | t :: rest => t ++ sep ++ intercalate sep rest
  end.

(** The error of line 74. *)
Definition gemini_error (res : response) : js_error :=
  Error (lit "Gemini error " ++ of_N (status res) ++ lit ": " ++
         text_or_empty res).

(** ** Runs that stop at a failed generation *)

(** In the events of a computation, a generation request answered with a
    non-success status is the last event, and the computation throws the
    error of line 74. *)
Definition stops_at_failed_generation {A} (x : result A * nat * list event)
  : Prop :=
  let '(r, _, d) := x in
  forall pre p res post,
    d = pre ++ GeminiRequest p (Replied res) :: post -> ok res = false ->
    post = [] /\ r = Throw (gemini_error res).

Definition aborting {A} (m : M A) : Prop :=
  forall net n, stops_at_failed_generation (m net n).

Definition is_generation (ev : event) : bool :=
  match ev with
  | GeminiRequest _ _ => true
  | _ => false
  end.

Definition is_request (ev : event) : bool :=
  match ev with
  | GeminiRequest _ _ | DevToRequest _ _ => true
  | _ => false
  end.

(** ** Sample inputs *)

(** A well-formed generation response with the given text fragments. *)
Definition candidate_response (texts : list jsstring) : value :=
  VObj [(lit "candidates",
         VArr [VObj [(lit "content",
                      VObj [(lit "parts",
                             VArr (map (fun t => VObj [(lit "text", VStr t)])
                                       texts));
                            (lit "role", VStr (lit "model"))])]])].

Definition success (texts : list jsstring) : response :=
  {| status := 200; text_body := None;
     json_body := Some (candidate_response texts) |}.

Definition quota_exceeded : response :=
  {| status := 500; text_body := Some (lit "quota exceeded");
     json_body := None |}.

Definition created : response :=
  {| status := 201; text_body := None;
     json_body :=
       Some (VObj [(lit "id", VNum (lit "7"));
                   (lit "url", VStr (lit "https://dev.to/a/b"))]) |}.

Definition brief_xy : brief :=
  {| role := lit "X"; focus := lit "Y"; length := None |}.

Definition may_first : jsstring := lit "2024-05-01".

Definition my_title_text : jsstring :=
  lit "# My Title" ++ [LF] ++ lit "Body content".

Definition two_fragments : list jsstring := [lit "a"; lit "b"].

Definition empty_object : response :=
  {| status := 200; text_body := None; json_body := Some (VObj []) |}.

Definition always (res : response) : network := fun _ => Replied res.

Definition one_request (res : response) : list event :=
  [GeminiRequest (gemini_prompt brief_xy) (Replied res)].

Definition env_ok : env :=
  {| DEVTO_API_KEY := Some (lit "devto-key");
     GEMINI_API_KEY := Some (lit "gemini-key") |}.

Definition env_empty : env :=
  {| DEVTO_API_KEY := None; GEMINI_API_KEY := None |}.

Definition noon : clock :=
  {| utc_year := 2024; utc_month := 4; utc_date := 1 |}.

(** The second generation is refused; everything else goes well. *)
Definition second_generation_fails : network :=
  fun n =>
    match n with
    | 0%nat => Replied (success [my_title_text])
    | 2%nat => Replied quota_exceeded
    | _ => Replied created
    end.

(** ** The shape of a run *)

(** The error of line 121. *)
Definition devto_error (res : response) : js_error :=
  Error (lit "dev.to publish error " ++ of_N (status res) ++ lit ": " ++
         text_or_empty res).

(** The ways a generation fails: no response, a non-success status, a body
    that is not JSON, a [parts] that cannot be read. *)
Inductive generation_fails : fetch_outcome -> js_error -> Prop :=
| generation_unreachable :
    generation_fails NetworkFailure FetchError
| generation_refused res :
    ok res = false -> generation_fails (Replied res) (gemini_error res)
| generation_not_json res :
    ok res = true -> json_body res = None ->
    generation_fails (Replied res) SyntaxError
| generation_malformed res data e :
    ok res = true -> json_body res = Some data ->
    response_text data = Throw e ->
    generation_fails (Replied res) e.

(** A generation that returns, and the text it read. *)
Inductive generation_returns : fetch_outcome -> jsstring -> Prop :=
| generation_read res data text :
    ok res = true -> json_body res = Some data ->
    response_text data = Ok text ->
    generation_returns (Replied res) text.

(** The ways a publish request fails. *)
Inductive publish_fails : fetch_outcome -> js_error -> Prop :=
| publish_unreachable :
    publish_fails NetworkFailure FetchError
| publish_refused res :
    ok res = false -> publish_fails (Replied res) (devto_error res)
| publish_not_json res :
    ok res = true -> json_body res = None ->
    publish_fails (Replied res) SyntaxError.

(** A publish request that returns, and the value it read. *)
Inductive publish_returns : fetch_outcome -> value -> Prop :=
| publish_read res post :
    ok res = true -> json_body res = Some post ->
    publish_returns (Replied res) post.

(** The lines of lines 152, 161 and 168. *)
Definition generating_line (i : nat) : jsstring :=
  lit "Generating article " ++ of_N (N.of_nat (i + 1)) ++ [ELLIPSIS].
Definition publishing_line (t : jsstring) : jsstring :=
  lit "Publishing to dev.to: " ++ [QUOTE] ++ t ++ [QUOTE] ++ [ELLIPSIS].
Definition published_line (link : jsstring) : jsstring :=
  [CHECK_MARK] ++ lit " Published: " ++ link.

(** Lines 156-159: the article as the loop hands it to the publisher. *)
Definition normalised (stamp : jsstring) (a : article) : article :=
  {| title := ensure_stamp stamp (title a);
     markdown := ensure_footer stamp (markdown a);
     tags := tags a |}.

(** The events of one turn of the loop up to its publish request. *)
Definition turn_events (stamp : jsstring) (i : nat) (b : brief)
    (greply : fetch_outcome) (text : jsstring) (preply : fetch_outcome)
  : list event :=
  let a := normalised stamp (article_of_text stamp (role b) text) in
  [ConsoleLog (generating_line i);
   GeminiRequest (gemini_prompt b) greply;
   ConsoleLog (publishing_line (title a));
   DevToRequest a preply].

(** The four ways one turn of the loop goes. *)
Inductive iteration_trace (stamp : jsstring) (i : nat) (b : brief)
  : result unit -> list event -> Prop :=
| turn_generation_fails greply e :
    generation_fails greply e ->
    iteration_trace stamp i b (Throw e)
      [ConsoleLog (generating_line i);
       GeminiRequest (gemini_prompt b) greply]
| turn_publish_fails greply text preply e :
    generation_returns greply text ->
    publish_fails preply e ->
    iteration_trace stamp i b (Throw e)
      (turn_events stamp i b greply text preply)
| turn_link_fails greply text preply post e :
    generation_returns greply text ->
    publish_returns preply post ->
    post_link post = Throw e ->
    iteration_trace stamp i b (Throw e)
      (turn_events stamp i b greply text preply)
| turn_done greply text preply post link :
    generation_returns greply text ->
    publish_returns preply post ->
    post_link post = Ok link ->
    iteration_trace stamp i b (Ok tt)
      (turn_events stamp i b greply text preply ++
       [ConsoleLog (published_line link); Sleep 2500]).

(** The loop: turns that go well, up to the end of the list or to the
    first turn that throws. *)
Inductive loop_trace (stamp : jsstring)
  : nat -> list brief -> result unit -> list event -> Prop :=
| loop_end i :
    loop_trace stamp i [] (Ok tt) []
| loop_stops i b bs e d :
    iteration_trace stamp i b (Throw e) d ->
    loop_trace stamp i (b :: bs) (Throw e) d
| loop_goes_on i b bs d r d' :
    iteration_trace stamp i b (Ok tt) d ->
    loop_trace stamp (S i) bs r d' ->
    loop_trace stamp i (b :: bs) r (d ++ d').

(** Line 129. *)
Definition starting_line (stamp : jsstring) : jsstring :=
  lit "Starting daily run " ++ stamp ++ [ELLIPSIS].

(** What a run prints and requests when both credentials are there. *)
Definition run_events (stamp : jsstring) (r : result unit) (d : list event)
  : list event * N :=
  match r with
  | Ok _ => (ConsoleLog (starting_line stamp) :: d ++
             [ConsoleLog (lit "All done.")], 0)
  | Throw err => (ConsoleLog (starting_line stamp) :: d ++
                  [ConsoleErrorThrown err], 1)
  end.

Definition is_publish (ev : event) : bool :=
  match ev with
  | DevToRequest _ _ => true
  | _ => false
  end.

Definition is_sleep (ev : event) : bool :=
  match ev with
  | Sleep _ => true
  | _ => false
  end.

(** How many events of [d] satisfy [f]. *)
Definition count (f : event -> bool) (d : list event) : nat :=
  List.length (filter f d).

(** The reply of a request was a success status. *)
Definition answered_ok (ev : event) : Prop :=
  match ev with
  | GeminiRequest _ reply | DevToRequest _ reply =>
      exists res, reply = Replied res /\ ok res = true
  | _ => True
  end.

(** A generation request that failed, and a publish request that failed,
    with the error thrown. *)
Definition generation_failure (ev : event) (e : js_error) : Prop :=
  match ev with
  | GeminiRequest _ reply => generation_fails reply e
  | _ => False
  end.

Definition publish_failure (ev : event) (e : js_error) : Prop :=
  match ev with
  | DevToRequest _ reply => publish_fails reply e
  | _ => False
  end.

(** In the events [d] of a computation with result [r], an event that is
    [bad] is the last one and its error is the one thrown. *)
Definition terminal (bad : event -> js_error -> Prop)
    (r : result unit) (d : list event) : Prop :=
  forall pre ev post e,
    d = pre ++ ev :: post -> bad ev e -> post = [] /\ r = Throw e.

(** ** Parts, dates *)

(** [t] is what part [p] contributes to the body: its [text] when that is a
    string, nothing when the part has no [text]. *)
Definition contributes (p : value) (t : jsstring) : Prop :=
  nullish p = false /\
  (get_field (lit "text") p = VStr t \/
   (nullish (get_field (lit "text") p) = true /\ t = [])).

Definition is_digit (c : code_unit) : bool := (48 <=? c) && (c <=? 57).

(** The number a string of decimal digits writes, after the digits [acc]. *)
Fixpoint number_of (s : jsstring) (acc : N) : option N :=
  match s with
  | [] => Some acc
  | c :: s' =>
      if is_digit c then number_of s' (10 * acc + (c - 48)) else None
  end.

(** The year, month and day that a string of the form [YYYY-MM-DD]
    writes. *)
Definition read_stamp (s : jsstring) : option (N * N * N) :=
  match s with
  | [y1; y2; y3; y4; dash1; m1; m2; dash2; d1; d2] =>
      if (dash1 =? 45) && (dash2 =? 45) then
        match number_of [y1; y2; y3; y4] 0, number_of [m1; m2] 0,
              number_of [d1; d2] 0 with
        | Some y, Some m, Some d => Some (y, m, d)
        | _, _, _ => None
        end
      else None
  | _ => None
  end.

(** [String(y)] for a year is four digits that write [y]; the padded
    [String(k)] is two digits that write [k]. *)
Definition year_reads (y : N) : bool :=
  match of_N y with
  | [a; b; c; d] =>
      match number_of [a; b; c; d] 0 with
      | Some v => v =? y
      | None => false
      end
  | _ => false
  end.

Definition two_reads (k : N) : bool :=
  match pad2 (of_N k) with
  | [a; b] =>
      match number_of [a; b] 0 with
      | Some v => v =? k
      | None => false
      end
  | _ => false
  end.

(** ** More sample inputs *)

Definition unprocessable : response :=
  {| status := 422; text_body := Some (lit "Validation failed");
     json_body := None |}.

Definition not_json : response :=
  {| status := 200; text_body := Some (lit "<html>"); json_body := None |}.

(** The second publish request is refused; everything else goes well. *)
Definition second_publish_fails : network :=
  fun n =>
    match n with
    | 0%nat | 2%nat => Replied (success [my_title_text])
    | 3%nat => Replied unprocessable
    | _ => Replied created
    end.

(** Generations and publish requests all go well. *)
Definition all_goes_well : network :=
  fun n => if Nat.even n then Replied (success [my_title_text])
           else Replied created.

Definition parts_is_a_string : response :=
  {| status := 200; text_body := None;
     json_body :=
       Some (VObj [(lit "candidates",
                    VArr [VObj [(lit "content",
                                 VObj [(lit "parts",
                                        VStr (lit "text"))])]])]) |}.

Definition part_without_text : response :=
  {| status := 200; text_body := None;
     json_body :=
       Some (VObj [(lit "candidates",
                    VArr [VObj [(lit "content",
                                 VObj [(lit "parts",
                                        VArr [VObj [(lit "text",
                                                     VStr (lit "a"))];
                                              VObj []])])]])]) |}.

Definition crlf_text : jsstring :=
  lit "# Title" ++ [CR; LF] ++ lit "Body".

Definition env_blank_devto : env :=
  {| DEVTO_API_KEY := Some []; GEMINI_API_KEY := Some (lit "gemini-key") |}.

Definition env_blank_gemini : env :=
  {| DEVTO_API_KEY := Some (lit "devto-key"); GEMINI_API_KEY := Some [] |}.

(** The article of the first and of the second brief, as published, when
    the generation answers [my_title_text]. *)
Definition first_published : article :=
  normalised may_first
    (article_of_text may_first (role (nth 0 briefs brief_xy)) my_title_text).

Definition second_published : article :=
  normalised may_first
    (article_of_text may_first (role (nth 1 briefs brief_xy)) my_title_text).

(** * Properties *)

Ltac split_all := repeat match goal with |- _ /\ _ => split end.

(** ** The string built-ins meet their specifications *)

Section StringFacts.

Lemma str_eqb_eq (a b : jsstring) : str_eqb a b = true <-> a = b.
Proof.
  revert b; induction a as [|x a IH]; intros [|y b]; simpl;
    try (split; [discriminate | congruence]); [tauto|].
  rewrite andb_true_iff, N.eqb_eq, IH.
  split; [intros [-> ->]; reflexivity | intros H; inversion H; auto].
Qed.

Lemma str_eqb_refl (a : jsstring) : str_eqb a a = true.
Proof. apply str_eqb_eq; reflexivity. Qed.

Lemma starts_with_spec (s p : jsstring) :
  starts_with s p = true <-> exists r, s = p ++ r.
Proof.
  revert s; induction p as [|x p IH]; intros s; simpl.
  - split; [intros _; exists s; reflexivity | reflexivity].
  - destruct s as [|y s].
    + split; [discriminate | intros [r H]; discriminate].
    + rewrite andb_true_iff, N.eqb_eq, IH. split.
      * intros [-> [r ->]]; exists r; reflexivity.
      * intros [r H]; inversion H; subst.
        split; [reflexivity | exists r; reflexivity].
Qed.

Lemma includes_spec (s p : jsstring) :
  includes s p = true <-> exists a b, s = a ++ p ++ b.
Proof.
  induction s as [|c s IH].
  - simpl. rewrite orb_false_r, starts_with_spec. split.
    + intros [r H]; exists [], r; exact H.
    + intros [a [b H]]. destruct a; [exists b; exact H | discriminate].
  - cbn [includes]. rewrite orb_true_iff, starts_with_spec, IH. split.
    + intros [[r H] | [a [b H]]].
      * exists [], r; exact H.
      * exists (c :: a), b; simpl; congruence.
    + intros [[|x a] [b H]].
      * left; exists b; exact H.
      * right; exists a, b; simpl in H; congruence.
Qed.

Lemma ends_with_spec (s p : jsstring) :
  ends_with s p = true <-> exists a, s = a ++ p.
Proof.
  unfold ends_with. rewrite andb_true_iff, Nat.leb_le, str_eqb_eq. split.
  - intros [_ H]. exists (firstn (List.length s - List.length p) s).
    pose proof (firstn_skipn (List.length s - List.length p) s) as F.
    rewrite H in F. symmetry; exact F.
  - intros [a ->]. rewrite length_app. split; [lia|].
    replace (List.length a + List.length p - List.length p)%nat
      with (List.length a + 0)%nat by lia.
    rewrite skipn_app, Nat.add_0_r, skipn_all, Nat.sub_diag. reflexivity.
Qed.

End StringFacts.

(** ** The two normalisations of the loop *)

(** C3. Footer appending is an "ensure suffix" operation: a body that
    already ends with the footer is returned as it is, any other body gets
    the footer appended, and doing it twice is doing it once. *)
Theorem ensure_footer_idempotent (stamp md : jsstring) :
  ((exists p, md = p ++ footer stamp) -> ensure_footer stamp md = md) /\
  ((~ exists p, md = p ++ footer stamp) ->
   ensure_footer stamp md = md ++ footer stamp) /\
  ensure_footer stamp (ensure_footer stamp md) = ensure_footer stamp md.
Proof.
  unfold ensure_footer.
  destruct (ends_with md (footer stamp)) eqn:E.
  - rewrite E. repeat split; auto.
    intros H; exfalso; apply H, ends_with_spec, E.
  - assert (E' : ends_with (md ++ footer stamp) (footer stamp) = true)
      by (apply ends_with_spec; exists md; reflexivity).
    rewrite E'. repeat split; auto.
    intros H; apply ends_with_spec in H; congruence.
Qed.

Lemma ensure_footer_idempotent_witness :
  ensure_footer may_first (lit "Body" ++ footer may_first) =
  lit "Body" ++ footer may_first /\
  ensure_footer may_first (lit "Body") = lit "Body" ++ footer may_first.
Proof.
  split.
  - apply (proj1 (ensure_footer_idempotent may_first
                    (lit "Body" ++ footer may_first))).
    exists (lit "Body"); reflexivity.
  - apply (proj1 (proj2 (ensure_footer_idempotent may_first (lit "Body")))).
    intros H. apply ends_with_spec in H. vm_compute in H. discriminate.
Defined.

(** C4. Title stamping is an "ensure contains" operation: a title in which
    the stamp occurs anywhere is returned as it is, any other title gets
    [" (stamp)"] appended, and doing it twice is doing it once. *)
Theorem ensure_stamp_idempotent (stamp t : jsstring) :
  ((exists a b, t = a ++ stamp ++ b) -> ensure_stamp stamp t = t) /\
  ((~ exists a b, t = a ++ stamp ++ b) ->
   ensure_stamp stamp t = t ++ lit " (" ++ stamp ++ lit ")") /\
  ensure_stamp stamp (ensure_stamp stamp t) = ensure_stamp stamp t.
Proof.
  unfold ensure_stamp, stamped.
  destruct (includes t stamp) eqn:E.
  - rewrite E. repeat split; auto.
    intros H; exfalso; apply H, includes_spec, E.
  - assert (E' : includes (t ++ lit " (" ++ stamp ++ lit ")") stamp = true).
    { apply includes_spec. exists (t ++ lit " ("), (lit ")").
      rewrite <- app_assoc. reflexivity. }
    rewrite E'. repeat split; auto.
    intros H; apply includes_spec in H; congruence.
Qed.

Lemma ensure_stamp_idempotent_witness :
  ensure_stamp may_first (lit "News 2024-05-01 edition") =
  lit "News 2024-05-01 edition" /\
  ensure_stamp may_first (lit "News") = lit "News (2024-05-01)".
Proof.
  split.
  - apply (proj1 (ensure_stamp_idempotent may_first
                    (lit "News 2024-05-01 edition"))).
    exists (lit "News "), (lit " edition"); reflexivity.
  - apply (proj1 (proj2 (ensure_stamp_idempotent may_first (lit "News")))).
    intros H. apply includes_spec in H. vm_compute in H. discriminate.
Defined.

(** ** The backtracking quantifiers, characterised

    Each quantifier returns the result of the first split of its input, in
    its priority order, on which the continuation succeeds. *)

Section MatcherFacts.
Context {R : Type}.
Implicit Types (p : code_unit -> bool) (s pre suf : jsstring).

Lemma star_greedy_none p s (k : jsstring -> option R) :
  star_greedy p s k = None <->
  (forall pre suf, s = pre ++ suf -> all p pre -> k suf = None).
Proof.
  induction s as [|c s IH]; simpl.
  - split.
    + intros H pre suf E _.
      destruct pre; destruct suf; try discriminate; exact H.
    + intros H; apply (H [] []); [reflexivity | constructor].
  - destruct (p c) eqn:Pc.
    + destruct (star_greedy p s k) eqn:E.
      * split; [discriminate|]. intros H.
        enough (Some r = None) by discriminate.
        apply IH. intros pre suf -> Hp.
        apply (H (c :: pre) suf); [reflexivity | constructor; assumption].
      * split.
        -- intros H pre suf E' Hp. destruct pre as [|x pre].
           ++ simpl in E'; subst suf; exact H.
           ++ inversion E'; subst. inversion Hp; subst.
              apply (proj1 IH eq_refl pre suf eq_refl); assumption.
        -- intros H; apply (H [] (c :: s)); [reflexivity | constructor].
    + split.
      * intros H pre suf E' Hp. destruct pre as [|x pre].
        -- simpl in E'; subst suf; exact H.
        -- inversion E'; subst. inversion Hp; congruence.
      * intros H; apply (H [] (c :: s)); [reflexivity | constructor].
Qed.

Lemma star_greedy_some p s (k : jsstring -> option R) (r : R) :
  star_greedy p s k = Some r <->
  exists pre suf,
    s = pre ++ suf /\ all p pre /\ k suf = Some r /\
    (forall pre' suf', s = pre' ++ suf' -> all p pre' ->
       (List.length pre < List.length pre')%nat -> k suf' = None).
Proof.
  induction s as [|c s IH]; simpl.
  - split.
    + intros H. exists [], []. split_all; auto; try solve [constructor].
      intros [|x pre'] suf' E _ L; [simpl in L; lia | discriminate].
    + intros (pre & suf & E & _ & H & _).
      destruct pre; destruct suf; try discriminate; exact H.
  - split.
    + intros H. destruct (p c) eqn:Pc;
        [destruct (star_greedy p s k) as [r'|] eqn:E|].
      * inversion H; subst r'.
        destruct (proj1 IH eq_refl) as (pre & suf & -> & Hp & Hk & Hmax).
        exists (c :: pre), suf. split_all; auto; try solve [constructor; auto].
        intros [|x pre'] suf' E' Hp' L; [simpl in L; lia|].
        inversion E'; subst. inversion Hp'; subst.
        apply (Hmax pre' suf'); auto. simpl in L; lia.
      * exists [], (c :: s). split_all; auto; try solve [constructor].
        intros [|x pre'] suf' E' Hp' L; [simpl in L; lia|].
        inversion E'; subst. inversion Hp'; subst.
        apply (proj1 (star_greedy_none p (pre' ++ suf') k) E pre' suf');
          auto.
      * exists [], (c :: s). split_all; auto; try solve [constructor].
        intros [|x pre'] suf' E' Hp' L; [simpl in L; lia|].
        inversion E'; subst. inversion Hp'; congruence.
    + intros (pre & suf & E' & Hp & Hk & Hmax).
      destruct pre as [|x pre].
      * simpl in E'; subst suf.
        destruct (p c) eqn:Pc; [|exact Hk].
        replace (star_greedy p s k) with (@None R); [exact Hk|].
        symmetry. apply star_greedy_none. intros pre suf -> Hp'.
        apply (Hmax (c :: pre) suf);
          [reflexivity | constructor; auto | simpl; lia].
      * inversion E'; subst. inversion Hp; subst.
        replace (p x) with true by auto.
        replace (star_greedy p (pre ++ suf) k) with (Some r); [reflexivity|].
        symmetry. apply IH. exists pre, suf. split_all; auto.
        intros pre' suf' E'' Hp' L.
        apply (Hmax (x :: pre') suf');
          [simpl; congruence | constructor; auto | simpl; lia].
Qed.

Lemma star_lazy_none p acc s (k : jsstring -> jsstring -> option R) :
  star_lazy p acc s k = None <->
  (forall pre suf, s = pre ++ suf -> all p pre -> k (acc ++ pre) suf = None).
Proof.
  revert acc; induction s as [|c s IH]; intros acc; simpl.
  - destruct (k acc []) eqn:E.
    + split; [discriminate|]. intros H.
      rewrite <- E, <- (app_nil_r acc) at 1.
      apply (H [] []); [reflexivity | constructor].
    + split; [|reflexivity]. intros _ pre suf E' _.
      destruct pre; destruct suf; try discriminate.
      rewrite app_nil_r; exact E.
  - destruct (k acc (c :: s)) eqn:E.
    + split; [discriminate|]. intros H.
      rewrite <- E, <- (app_nil_r acc) at 1.
      apply (H [] (c :: s)); [reflexivity | constructor].
    + destruct (p c) eqn:Pc.
      * rewrite IH. split.
        -- intros H [|x pre] suf E' Hp.
           ++ simpl in E'; subst suf. rewrite app_nil_r; exact E.
           ++ inversion E'; subst. inversion Hp; subst.
              specialize (H pre suf eq_refl H3).
              rewrite <- app_assoc in H. exact H.
        -- intros H pre suf -> Hp. rewrite <- app_assoc.
           apply (H (c :: pre) suf); [reflexivity | constructor; auto].
      * split; [|reflexivity]. intros _ [|x pre] suf E' Hp.
        -- simpl in E'; subst suf. rewrite app_nil_r; exact E.
        -- inversion E'; subst. inversion Hp; congruence.
Qed.

Lemma star_lazy_some p acc s (k : jsstring -> jsstring -> option R) (r : R) :
  star_lazy p acc s k = Some r <->
  exists pre suf,
    s = pre ++ suf /\ all p pre /\ k (acc ++ pre) suf = Some r /\
    (forall pre' suf', s = pre' ++ suf' ->
       (List.length pre' < List.length pre)%nat ->
       k (acc ++ pre') suf' = None).
Proof.
  revert acc; induction s as [|c s IH]; intros acc; simpl.
  - destruct (k acc []) eqn:E.
    + split.
      * intros H; inversion H; subst. exists [], [].
        split_all; rewrite ?app_nil_r; auto; try solve [constructor].
        intros pre' suf' _ L; simpl in L; lia.
      * intros (pre & suf & E' & _ & Hk & _).
        destruct pre; destruct suf; try discriminate.
        rewrite app_nil_r in Hk. congruence.
    + split; [discriminate|].
      intros (pre & suf & E' & _ & Hk & _).
      destruct pre; destruct suf; try discriminate.
      rewrite app_nil_r in Hk. congruence.
  - destruct (k acc (c :: s)) eqn:E.
    + split.
      * intros H; inversion H; subst. exists [], (c :: s).
        split_all; rewrite ?app_nil_r; auto; try solve [constructor].
        intros pre' suf' _ L; simpl in L; lia.
      * intros (pre & suf & E' & _ & Hk & Hmin).
        destruct pre as [|x pre].
        -- simpl in E'; subst suf. rewrite app_nil_r in Hk. congruence.
        -- specialize (Hmin [] (c :: s) eq_refl).
           rewrite app_nil_r in Hmin.
           rewrite Hmin in E; [discriminate | simpl; lia].
    + destruct (p c) eqn:Pc.
      * rewrite IH. split.
        -- intros (pre & suf & -> & Hp & Hk & Hmin).
           exists (c :: pre), suf. rewrite <- app_assoc in Hk.
           split_all; auto; try solve [constructor; auto].
           intros [|x pre'] suf' E' L.
           ++ simpl in E'; subst suf'. rewrite app_nil_r; exact E.
           ++ inversion E'; subst.
              specialize (Hmin pre' suf' H1).
              rewrite <- app_assoc in Hmin. apply Hmin. simpl in L; lia.
        -- intros (pre & suf & E' & Hp & Hk & Hmin).
           destruct pre as [|x pre].
           ++ simpl in E'; subst suf. rewrite app_nil_r in Hk. congruence.
           ++ inversion E'; subst. inversion Hp; subst.
              exists pre, suf. rewrite <- app_assoc.
              split_all; auto.
              intros pre' suf' E'' L. rewrite <- app_assoc.
              apply (Hmin (x :: pre') suf'); [simpl; congruence | simpl; lia].
      * split; [discriminate|].
        intros (pre & suf & E' & Hp & Hk & Hmin).
        destruct pre as [|x pre].
        -- simpl in E'; subst suf. rewrite app_nil_r in Hk. congruence.
        -- inversion E'; subst. inversion Hp; congruence.
Qed.

End MatcherFacts.

Section HeadingFacts.
Implicit Types (line s h ws : jsstring).

Lemma app_eq_app_le {A} (a b c d : list A) :
  a ++ b = c ++ d -> (List.length a <= List.length c)%nat ->
  exists x, c = a ++ x /\ b = x ++ d.
Proof.
  intros E L. destruct (app_eq_app _ _ _ _ E) as [l [[Ha Hd] | [Hc Hb]]].
  - subst a. rewrite length_app in L. destruct l; [|simpl in L; lia].
    exists []. rewrite !app_nil_r. simpl in *. split; congruence.
  - exists l; split; assumption.
Qed.

Lemma all_app p s1 s2 : all p (s1 ++ s2) <-> all p s1 /\ all p s2.
Proof. apply Forall_app. Qed.

Lemma hash_not_space : is_space HASH = false.
Proof. reflexivity. Qed.

Lemma all_space_no_hash ws1 ws2 : all is_space (ws1 ++ HASH :: ws2) -> False.
Proof.
  intros H. apply all_app in H. destruct H as [_ H]. inversion H; subst.
  rewrite hash_not_space in *. discriminate.
Qed.

(** The white space before [#] is determined by the line. *)
Lemma lead_unique ws1 r1 ws2 r2 :
  ws1 ++ HASH :: r1 = ws2 ++ HASH :: r2 ->
  all is_space ws1 -> all is_space ws2 -> ws1 = ws2 /\ r1 = r2.
Proof.
  intros E H1 H2.
  destruct (app_eq_app _ _ _ _ E) as [l [[-> E'] | [-> E']]];
    (destruct l as [|x l];
     [ rewrite app_nil_r; simpl in E'; inversion E'; auto
     | simpl in E'; inversion E'; subst ]).
  - destruct (all_space_no_hash _ _ H1).
  - destruct (all_space_no_hash _ _ H2).
Qed.

Lemma trail_some s (m r : jsstring) :
  star_greedy is_space s (fun s5 => eol m s5) = Some r <->
  r = m /\ all is_space s.
Proof.
  rewrite star_greedy_some. split.
  - intros (pre & suf & -> & Hp & Hk & _).
    destruct suf; simpl in Hk; [|discriminate].
    rewrite app_nil_r. split; [congruence | exact Hp].
  - intros [-> Hs]. exists s, []. rewrite app_nil_r. split_all; auto.
    intros pre' suf' -> _ L. rewrite length_app in L. lia.
Qed.

Lemma trail_none s (m : jsstring) :
  star_greedy is_space s (fun s5 => eol m s5) = None <-> ~ all is_space s.
Proof.
  destruct (star_greedy is_space s (fun s5 => eol m s5)) eqn:E.
  - apply trail_some in E. split; [discriminate | tauto].
  - split; [|reflexivity]. intros _ Hs.
    assert (X : star_greedy is_space s (fun s5 => eol m s5) = Some m)
      by (apply trail_some; auto).
    congruence.
Qed.

Lemma match_tail_some s3 h :
  match_tail s3 = Some h <->
  (exists ws3, tail_split s3 h ws3) /\
  (forall h' ws3', tail_split s3 h' ws3' ->
     (List.length h <= List.length h')%nat).
Proof.
  unfold match_tail, plus_lazy. destruct s3 as [|c s].
  - split; [discriminate|]. intros [[ws3 (E & _ & N & _)] _].
    destruct h; [congruence | discriminate].
  - destruct (is_dot c) eqn:Dc.
    + rewrite star_lazy_some. split.
      * intros (pre & suf & -> & Hp & Hk & Hmin).
        apply trail_some in Hk. destruct Hk as [-> Hs]. split.
        -- exists suf. unfold tail_split; simpl.
           split_all; auto; try discriminate; try solve [constructor; auto].
        -- intros h' ws3' (E & Hd & N & Hs').
           destruct h' as [|x h']; [congruence|]. inversion E; subst x.
           destruct (Nat.le_gt_cases (List.length pre) (List.length h'))
             as [L|L]; [simpl; lia|].
           specialize (Hmin h' ws3' H1 L).
           apply trail_none in Hmin. tauto.
      * intros [[ws3 (E & Hd & N & Hs)] Hmin].
        destruct h as [|x h]; [congruence|]. inversion E; subst x.
        inversion Hd; subst.
        exists h, ws3. split_all; auto; try solve [apply trail_some; auto].
        intros pre' suf' E' L. apply trail_none. intros Hs'.
        destruct (app_eq_app_le _ _ _ _ (eq_sym E')) as [y [-> _]]; [lia|].
        apply all_app in H3. destruct H3 as [H3 _].
        specialize (Hmin (c :: pre') suf').
        simpl in Hmin. rewrite length_app in L.
        enough (S (List.length (pre' ++ y)) <= S (List.length pre'))%nat
          by (rewrite length_app in *; lia).
        apply Hmin. unfold tail_split. split_all; auto; try discriminate;
          try solve [simpl; congruence | constructor; auto].
    + split; [discriminate|]. intros [[ws3 (E & Hd & N & _)] _].
      destruct h as [|x h]; [congruence|]. inversion E; subst x.
      inversion Hd; congruence.
Qed.

Lemma match_tail_none s3 :
  match_tail s3 = None <-> (forall h ws3, ~ tail_split s3 h ws3).
Proof.
  unfold match_tail, plus_lazy. destruct s3 as [|c s].
  - split; [|reflexivity]. intros _ h ws3 (E & _ & N & _).
    destruct h; [congruence | discriminate].
  - destruct (is_dot c) eqn:Dc.
    + rewrite star_lazy_none. split.
      * intros H h ws3 (E & Hd & N & Hs).
        destruct h as [|x h]; [congruence|]. simpl in E.
        injection E as Ec Es. subst x.
        inversion Hd as [|? ? Hc Hr]; subst.
        specialize (H h ws3 eq_refl Hr). apply trail_none in H. tauto.
      * intros H pre suf -> Hp. apply trail_none. intros Hs.
        apply (H (c :: pre) suf). unfold tail_split.
        split_all; auto; try discriminate; constructor; auto.
    + split; [|reflexivity]. intros _ h ws3 (E & Hd & N & _).
      destruct h as [|x h]; [congruence|]. inversion E; subst x.
      inversion Hd; congruence.
Qed.

Lemma match_gap_some s2 h :
  match_gap s2 = Some h <->
  exists ws2 s3,
    s2 = ws2 ++ s3 /\ all is_space ws2 /\ ws2 <> [] /\
    match_tail s3 = Some h /\
    (forall ws2' s3', s2 = ws2' ++ s3' -> all is_space ws2' ->
       (List.length ws2 < List.length ws2')%nat -> match_tail s3' = None).
Proof.
  unfold match_gap, plus_greedy. destruct s2 as [|c s].
  - split; [discriminate|]. intros (ws2 & s3 & E & _ & N & _).
    destruct ws2; [congruence | discriminate].
  - destruct (is_space c) eqn:Sc.
    + rewrite star_greedy_some. split.
      * intros (pre & suf & -> & Hp & Hk & Hmax).
        exists (c :: pre), suf.
        split_all; auto; try discriminate; try solve [constructor; auto].
        intros [|x ws2'] s3' E Hs L; [simpl in L; lia|].
        inversion E; subst x. inversion Hs; subst.
        apply (Hmax ws2' s3'); auto. simpl in L; lia.
      * intros (ws2 & s3 & E & Hs & N & Hk & Hmax).
        destruct ws2 as [|x ws2]; [congruence|]. inversion E; subst x.
        inversion Hs; subst.
        exists ws2, s3. split_all; auto.
        intros pre' suf' E' Hp L.
        apply (Hmax (c :: pre') suf');
          [simpl; congruence | constructor; auto | simpl; lia].
    + split; [discriminate|]. intros (ws2 & s3 & E & Hs & N & _).
      destruct ws2 as [|x ws2]; [congruence|]. inversion E; subst x.
      inversion Hs; congruence.
Qed.

Lemma match_gap_none s2 :
  match_gap s2 = None <->
  (forall ws2 s3, s2 = ws2 ++ s3 -> all is_space ws2 -> ws2 <> [] ->
     match_tail s3 = None).
Proof.
  unfold match_gap, plus_greedy. destruct s2 as [|c s].
  - split; [|reflexivity]. intros _ ws2 s3 E _ N.
    destruct ws2; [congruence | discriminate].
  - destruct (is_space c) eqn:Sc.
    + rewrite star_greedy_none. split.
      * intros H [|x ws2] s3 E Hs N; [congruence|].
        inversion E; subst x. inversion Hs; subst. apply (H ws2 s3); auto.
      * intros H pre suf -> Hp. apply (H (c :: pre) suf);
          [reflexivity | constructor; auto | discriminate].
    + split; [|reflexivity]. intros _ [|x ws2] s3 E Hs N; [congruence|].
      inversion E; subst x. inversion Hs; congruence.
Qed.

Lemma exec_heading_unfold line :
  exec_heading line =
  star_greedy is_space line (fun s1 => char HASH s1 match_gap).
Proof. reflexivity. Qed.

Lemma char_hash_some suf (r : jsstring) :
  char HASH suf match_gap = Some r <->
  exists s2, suf = HASH :: s2 /\ match_gap s2 = Some r.
Proof.
  unfold char. destruct suf as [|c s].
  - split; [discriminate | intros [s2 [E _]]; discriminate].
  - destruct (N.eqb_spec c HASH) as [->|Ne].
    + split; [intros H; exists s; auto|].
      intros [s2 [E H]]; inversion E; subst; exact H.
    + split; [discriminate | intros [s2 [E _]]; congruence].
Qed.

Lemma exec_heading_some line h :
  exec_heading line = Some h <->
  exists ws1 s2,
    line = ws1 ++ HASH :: s2 /\ all is_space ws1 /\ match_gap s2 = Some h.
Proof.
  rewrite exec_heading_unfold, star_greedy_some. split.
  - intros (pre & suf & -> & Hp & Hk & _).
    apply char_hash_some in Hk. destruct Hk as [s2 [-> Hk]].
    exists pre, s2. auto.
  - intros (ws1 & s2 & -> & Hs & Hk).
    exists ws1, (HASH :: s2).
    split_all; auto; try solve [apply char_hash_some; exists s2; auto].
    intros pre' suf' E Hp L.
    destruct (app_eq_app_le _ _ _ _ E) as [x [-> Ex]]; [lia|].
    destruct x as [|y x]; [rewrite length_app in L; simpl in L; lia|].
    inversion Ex; subst y. destruct (all_space_no_hash _ _ Hp).
Qed.

Lemma exec_heading_none line :
  exec_heading line = None <->
  (forall ws1 s2, line = ws1 ++ HASH :: s2 -> all is_space ws1 ->
     match_gap s2 = None).
Proof.
  rewrite exec_heading_unfold, star_greedy_none. split.
  - intros H ws1 s2 E Hs. specialize (H ws1 (HASH :: s2) E Hs).
    simpl in H. exact H.
  - intros H pre suf E Hp.
    destruct (char HASH suf match_gap) as [r|] eqn:K; [|reflexivity].
    apply char_hash_some in K. destruct K as [s2 [-> K]].
    rewrite (H pre s2 E Hp) in K. discriminate.
Qed.

(** The matcher returns the heading text of the line, when there is one. *)
Lemma exec_heading_spec line h :
  exec_heading line = Some h <-> heading_text line h.
Proof.
  rewrite exec_heading_some. split.
  - intros (ws1 & s2 & -> & Hs1 & Hg).
    apply match_gap_some in Hg.
    destruct Hg as (ws2 & s3 & -> & Hs2 & N2 & Ht & Hmax).
    apply match_tail_some in Ht.
    destruct Ht as [[ws3 (-> & Hd & Nh & Hs3)] Hmin].
    exists ws1, ws2, ws3. unfold heading_split. split_all; auto.
    + intros ws1' ws2' h' ws3' (E & Hs1' & Hs2' & N2' & Hd' & Nh' & Hs3').
      destruct (lead_unique _ _ _ _ E Hs1 Hs1') as [_ E2].
      destruct (Nat.le_gt_cases (List.length ws2') (List.length ws2))
        as [L|L]; [exact L|].
      specialize (Hmax ws2' (h' ++ ws3') E2 Hs2' L).
      exfalso. apply (proj1 (match_tail_none _) Hmax h' ws3').
      unfold tail_split; auto.
    + intros ws1' h' ws3' (E & Hs1' & _ & _ & Hd' & Nh' & Hs3').
      destruct (lead_unique _ _ _ _ E Hs1 Hs1') as [_ E2].
      apply app_inv_head in E2.
      apply (Hmin h' ws3'). unfold tail_split; auto.
  - intros (ws1 & ws2 & ws3 & (-> & Hs1 & Hs2 & N2 & Hd & Nh & Hs3)
            & Hmax & Hmin).
    exists ws1, (ws2 ++ h ++ ws3). split_all; auto.
    apply match_gap_some. exists ws2, (h ++ ws3). split_all; auto.
    + apply match_tail_some. split.
      * exists ws3. unfold tail_split; auto.
      * intros h' ws3' (E & Hd' & Nh' & Hs3').
        apply (Hmin ws1 h' ws3'). unfold heading_split.
        split_all; auto. congruence.
    + intros ws2' s3' E Hs2' L. apply match_tail_none.
      intros h' ws3' (-> & Hd' & Nh' & Hs3').
      enough (List.length ws2' <= List.length ws2)%nat by lia.
      apply (Hmax ws1 ws2' h' ws3'). unfold heading_split.
      split_all; auto; try congruence.
      intros ->; simpl in L; lia.
Qed.

(** The matcher returns [null] on the lines that do not match, and on no
    other. *)
Lemma exec_heading_null line :
  exec_heading line = None <-> ~ matches_heading line.
Proof.
  rewrite exec_heading_none. split.
  - intros H (ws1 & ws2 & h & ws3 & (-> & Hs1 & Hs2 & N2 & Hd & Nh & Hs3)).
    specialize (H ws1 (ws2 ++ h ++ ws3) eq_refl Hs1).
    apply (proj1 (match_gap_none _)) with (ws2 := ws2) (s3 := h ++ ws3) in H;
      auto.
    apply (proj1 (match_tail_none _) H h ws3). unfold tail_split; auto.
  - intros H ws1 s2 -> Hs1. apply match_gap_none.
    intros ws2 s3 -> Hs2 N2. apply match_tail_none.
    intros h ws3 (-> & Hd & Nh & Hs3). apply H.
    exists ws1, ws2, h, ws3. unfold heading_split. auto 10.
Qed.

(** A line that matches has a heading text, and only one. *)
Lemma heading_text_exists line :
  matches_heading line -> exists h, heading_text line h.
Proof.
  intros H. destruct (exec_heading line) as [h|] eqn:E.
  - exists h. apply exec_heading_spec, E.
  - apply exec_heading_null in E. tauto.
Qed.

Lemma heading_text_unique line h1 h2 :
  heading_text line h1 -> heading_text line h2 -> h1 = h2.
Proof.
  intros H1 H2. apply exec_heading_spec in H1, H2. congruence.
Qed.

Lemma heading_text_matches line h :
  heading_text line h -> matches_heading line.
Proof. intros (ws1 & ws2 & ws3 & H & _). exists ws1, ws2, h, ws3; exact H. Qed.

(** The usual case: a text that starts and ends with something other than
    white space is the heading text. *)
Lemma heading_text_trimmed line ws1 ws2 h ws3 a h1 h2 b :
  heading_split line ws1 ws2 h ws3 ->
  h = a :: h1 -> is_space a = false ->
  h = h2 ++ [b] -> is_space b = false ->
  heading_text line h.
Proof.
  intros Hsplit Ha Sa Hb Sb. exists ws1, ws2, ws3.
  split; [exact Hsplit|].
  destruct Hsplit as (E & Hs1 & Hs2 & N2 & Hd & Nh & Hs3). split.
  - intros ws1' ws2' h' ws3' (E' & Hs1' & Hs2' & _).
    rewrite E in E'. destruct (lead_unique _ _ _ _ E' Hs1 Hs1') as [_ E2].
    destruct (Nat.le_gt_cases (List.length ws2') (List.length ws2))
      as [L|L]; [exact L|].
    destruct (app_eq_app_le _ _ _ _ E2) as [x [-> Ex]]; [lia|].
    destruct x as [|y x]; [rewrite length_app in L; simpl in L; lia|].
    rewrite Ha in Ex. simpl in Ex. injection Ex as <- _.
    apply all_app in Hs2'. destruct Hs2' as [_ Hy].
    inversion Hy; congruence.
  - intros ws1' h' ws3' (E' & Hs1' & _ & _ & _ & _ & Hs3').
    rewrite E in E'. destruct (lead_unique _ _ _ _ E' Hs1 Hs1') as [_ E2].
    apply app_inv_head in E2.
    destruct (Nat.le_gt_cases (List.length h) (List.length h'))
      as [L|L]; [exact L|].
    destruct (app_eq_app_le _ _ _ _ (eq_sym E2)) as [x [Ex Ex']]; [lia|].
    destruct (exists_last (l := x)) as (x' & y & ->).
    { intros ->. rewrite app_nil_r in Ex. subst h'. lia. }
    rewrite Hb, app_assoc in Ex. apply app_inj_tail in Ex.
    destruct Ex as [_ <-]. rewrite Ex' in Hs3'.
    apply all_app in Hs3'. destruct Hs3' as [Hx _].
    apply all_app in Hx. destruct Hx as [_ Hy].
    inversion Hy; congruence.
Qed.

End HeadingFacts.

Section GeneratorFacts.
Implicit Types (b : brief) (a : article) (net : network) (n : nat).

Lemma generateArticle_ok stamp b net n a n' d :
  generateArticle stamp b net n = (Ok a, n', d) ->
  exists res data text,
    net n = Replied res /\ ok res = true /\ json_body res = Some data /\
    response_text data = Ok text /\
    a = article_of_text stamp (role b) text.
Proof.
  unfold generateArticle, bind, fetch, json, lift, ret, throw.
  destruct (net n) as [|res]; [discriminate|].
  destruct (ok res) eqn:Eok; simpl; [|discriminate].
  destruct (json_body res) as [data|] eqn:Ej; [|discriminate].
  destruct (response_text data) as [text|e] eqn:Et; [|discriminate].
  intros H; inversion H; subst. exists res, data, text. repeat split; auto.
Qed.

Lemma generateArticle_returns stamp b net n res data text :
  net n = Replied res -> ok res = true -> json_body res = Some data ->
  response_text data = Ok text ->
  generateArticle stamp b net n =
  (Ok (article_of_text stamp (role b) text), S n,
   [GeminiRequest (gemini_prompt b) (Replied res)]).
Proof.
  intros Hn Hok Hj Ht.
  unfold generateArticle, bind, fetch, json, lift, ret, throw.
  rewrite Hn, Hok; simpl. rewrite Hj, Ht. reflexivity.
Qed.

Lemma generateArticle_rejects stamp b net n res :
  net n = Replied res -> ok res = false ->
  generateArticle stamp b net n =
  (Throw (gemini_error res), S n,
   [GeminiRequest (gemini_prompt b) (Replied res)]).
Proof.
  intros Hn Hok.
  unfold generateArticle, bind, fetch, json, lift, ret, throw.
  rewrite Hn, Hok; reflexivity.
Qed.

End GeneratorFacts.

(** ** The title *)

Lemma title_of_heading_text stamp role text h :
  heading_text (first_line text) h ->
  title (article_of_text stamp role text) = h ++ lit " (" ++ stamp ++ lit ")".
Proof.
  intros H. apply exec_heading_spec in H. simpl. rewrite H. reflexivity.
Qed.

(** C1. When the first line of the text read from the generation response
    matches the heading pattern, [generateArticle] returns an article whose
    title is the heading text of that line followed by the date stamp in
    parentheses. *)
Theorem heading_gives_title stamp b net n res data text :
  net n = Replied res -> ok res = true -> json_body res = Some data ->
  response_text data = Ok text ->
  matches_heading (first_line text) ->
  exists h a,
    heading_text (first_line text) h /\
    generateArticle stamp b net n =
    (Ok a, S n, [GeminiRequest (gemini_prompt b) (Replied res)]) /\
    markdown a = text /\
    title a = h ++ lit " (" ++ stamp ++ lit ")".
Proof.
  intros Hn Hok Hj Ht H. apply heading_text_exists in H.
  destruct H as [h H].
  exists h, (article_of_text stamp (role b) text). split_all.
  - exact H.
  - apply generateArticle_returns with (data := data); assumption.
  - reflexivity.
  - apply title_of_heading_text, H.
Qed.


(** C5. The tags of every generated article are the same five, whatever the
    brief and the response. *)
Theorem tags_are_fixed stamp b net n a n' d :
  generateArticle stamp b net n = (Ok a, n', d) ->
  tags a =
  [lit "ai"; lit "machinelearning"; lit "career"; lit "productivity";
   lit "programming"].
Proof.
  intros G. apply generateArticle_ok in G.
  destruct G as (res & data & text & _ & _ & _ & _ & ->). reflexivity.
Qed.

(** C10. Every generated title contains the date stamp, so the check of
    line 156 leaves it as it is. *)
Theorem generated_title_has_stamp stamp b net n a n' d :
  generateArticle stamp b net n = (Ok a, n', d) ->
  includes (title a) stamp = true /\ ensure_stamp stamp (title a) = title a.
Proof.
  intros G. apply generateArticle_ok in G.
  destruct G as (res & data & text & _ & _ & _ & _ & ->).
  assert (I : includes (title (article_of_text stamp (role b) text)) stamp
              = true).
  { apply includes_spec. simpl.
    destruct (exec_heading (first_line text)) as [m1|].
    - exists (m1 ++ lit " ("), (lit ")"). unfold stamped.
      rewrite <- app_assoc. reflexivity.
    - exists (lit "AI & Tech " ++ [BULLET] ++ lit " " ++ role b ++
              lit " " ++ [BULLET] ++ lit " "), [].
      unfold fallback_title. rewrite app_nil_r, <- !app_assoc. reflexivity. }
  split; [exact I|]. unfold ensure_stamp. rewrite I. reflexivity.
Qed.

(** ** The body *)

Section BodyFacts.

Lemma opt_field_get name v : opt_field name v = get_field name v.
Proof. destruct v; reflexivity. Qed.

Lemma opt_index0_get v : opt_index0 v = get_index0 v.
Proof. destruct v; reflexivity. Qed.

Lemma get_field_nullish name v :
  nullish v = true -> get_field name v = VUndefined.
Proof. destruct v; simpl; congruence. Qed.

Lemma get_index0_nullish v : nullish v = true -> get_index0 v = VUndefined.
Proof. destruct v; simpl; congruence. Qed.

Lemma lacks_parts_nullish data :
  lacks_parts data -> nullish (parts_of data) = true.
Proof.
  unfold lacks_parts, parts_of.
  rewrite !opt_field_get, opt_index0_get.
  intros [H | [H | [H | [H | H]]]];
    repeat first [ rewrite (get_field_nullish _ _ H)
                 | rewrite (get_index0_nullish _ H)
                 | rewrite (get_field_nullish _ VUndefined eq_refl)
                 | rewrite (get_index0_nullish VUndefined eq_refl) ];
    auto.
Qed.

Lemma response_text_lacking data :
  lacks_parts data -> response_text data = Ok [].
Proof.
  intros H. apply lacks_parts_nullish in H. unfold response_text.
  destruct (parts_of data); simpl in H; congruence.
Qed.

Lemma map_text_fragments items texts :
  Forall2 (fun p t => get_field (lit "text") p = VStr t) items texts ->
  map_text items = Ok (map VStr texts).
Proof.
  induction 1 as [|p t items texts Hp _ IH]; [reflexivity|].
  simpl. destruct p; try discriminate. simpl in *. rewrite IH, Hp. reflexivity.
Qed.

Lemma join_strings sep texts :
  join sep (map VStr texts) = Ok (intercalate sep texts).
Proof.
  induction texts as [|t rest IH]; [reflexivity|].
  cbn [map join nullish to_string intercalate].
  destruct rest as [|t' rest]; [reflexivity|].
  cbn [map] in *. rewrite IH. reflexivity.
Qed.

Lemma response_text_fragments data texts :
  fragments data texts ->
  response_text data = Ok (trim (intercalate [LF] texts)).
Proof.
  intros (items & Hp & Hf). unfold response_text.
  rewrite Hp, (map_text_fragments _ _ Hf), join_strings. reflexivity.
Qed.

End BodyFacts.

(** C7. A successful response without [candidates[0].content.parts] is no
    error: the article has an empty body and the fallback title. *)
Theorem lenient_on_missing_parts stamp b net n res data :
  net n = Replied res -> ok res = true -> json_body res = Some data ->
  lacks_parts data ->
  generateArticle stamp b net n =
  (Ok {| title := lit "AI & Tech " ++ [BULLET] ++ lit " " ++ role b ++
                  lit " " ++ [BULLET] ++ lit " " ++ stamp;
         markdown := [];
         tags := fixed_tags |},
   S n, [GeminiRequest (gemini_prompt b) (Replied res)]).
Proof.
  intros Hn Hok Hj Hl.
  rewrite (generateArticle_returns stamp b net n res data []); auto.
  apply response_text_lacking, Hl.
Qed.

(** C9, as the code has it. The body is the text fragments of the response
    joined with a line feed between each two, with leading and trailing
    white space trimmed. *)
Theorem body_is_joined_fragments stamp b net n res data texts :
  net n = Replied res -> ok res = true -> json_body res = Some data ->
  fragments data texts ->
  exists a,
    generateArticle stamp b net n =
    (Ok a, S n, [GeminiRequest (gemini_prompt b) (Replied res)]) /\
    markdown a = trim (intercalate [LF] texts).
Proof.
  intros Hn Hok Hj Hf.
  exists (article_of_text stamp (role b) (trim (intercalate [LF] texts))).
  split; [|reflexivity].
  apply generateArticle_returns with (data := data); auto.
  apply response_text_fragments, Hf.
Qed.

Lemma fragments_candidate_response texts :
  fragments (candidate_response texts) texts.
Proof.
  exists (map (fun t => VObj [(lit "text", VStr t)]) texts).
  split; [reflexivity|].
  induction texts; constructor; auto.
Qed.

(** C9, as the claim has it, fails: two fragments come out with a line feed
    between them, which their concatenation does not have. *)
Lemma body_is_not_concatenation :
  fragments (candidate_response two_fragments) two_fragments /\
  (exists a n' d,
     generateArticle may_first brief_xy (always (success two_fragments))
       0%nat = (Ok a, n', d) /\
     markdown a = lit "a" ++ [LF] ++ lit "b" /\
     markdown a <> trim (List.concat two_fragments)).
Proof.
  split; [apply fragments_candidate_response|].
  eexists _, _, _. split; [reflexivity|].
  split; [reflexivity | vm_compute; discriminate].
Qed.

(** ** A failed generation ends the run *)

Section AbortFacts.

Lemma singleton_split {A} (e x : A) pre post :
  [e] = pre ++ x :: post -> pre = [] /\ x = e /\ post = [].
Proof.
  destruct pre as [|y pre]; simpl; intros H; inversion H; auto.
  destruct pre; discriminate.
Qed.

Lemma aborting_silent {A} (m : M A) :
  (forall net n, snd (m net n) = []) -> aborting m.
Proof.
  intros H net n. specialize (H net n).
  destruct (m net n) as [[r n'] d]. simpl in *. subst d.
  intros pre p res post E. destruct pre; discriminate.
Qed.

Lemma aborting_ret {A} (a : A) : aborting (ret a).
Proof. apply aborting_silent; reflexivity. Qed.

Lemma aborting_throw {A} e : aborting (@throw A e).
Proof. apply aborting_silent; reflexivity. Qed.

Lemma aborting_lift {A} (r : result A) : aborting (lift r).
Proof. apply aborting_silent; reflexivity. Qed.

Lemma aborting_emit ev : is_generation ev = false -> aborting (emit ev).
Proof.
  intros H net n pre p res post E _.
  apply singleton_split in E. destruct E as (_ & <- & _). discriminate.
Qed.

Lemma aborting_bind {A B} (m : M A) (f : A -> M B) :
  aborting m -> (forall a, aborting (f a)) -> aborting (bind m f).
Proof.
  intros Hm Hf net n. unfold bind. specialize (Hm net n).
  destruct (m net n) as [[[a|e] n1] d1].
  2:{ simpl in *. intros pre p res post E Hok.
      destruct (Hm pre p res post E Hok) as [-> X].
      injection X as ->. auto. }
  specialize (Hf a net n1). destruct (f a net n1) as [[r2 n2] d2].
  simpl in *. intros pre p res post E Hok.
  destruct (app_eq_app _ _ _ _ E) as [l [[E1 E2] | [E1 E2]]].
  - destruct l as [|y l].
    + simpl in E2. apply (Hf [] p res post); auto.
    + simpl in E2. injection E2 as <- ->.
      destruct (Hm pre p res l E1 Hok) as [_ X]. discriminate.
  - apply (Hf l p res post); auto.
Qed.

Lemma aborting_generateArticle stamp b : aborting (generateArticle stamp b).
Proof.
  intros net n.
  unfold generateArticle, bind, fetch, json, lift, ret, throw.
  destruct (net n) as [|res0] eqn:Hn.
  - intros pre p res post E _.
    apply singleton_split in E. destruct E as (_ & E & _). discriminate.
  - destruct (ok res0) eqn:Hok; simpl.
    + destruct (json_body res0) as [data|];
        [destruct (response_text data)|];
        intros pre p res post E Hf; simpl in E;
        apply singleton_split in E; destruct E as (_ & E & _);
        injection E as _ <-; congruence.
    + intros pre p res post E Hf. apply singleton_split in E.
      destruct E as (_ & E & ->). injection E as _ <-. auto.
Qed.

Lemma aborting_publishToDevTo a : aborting (publishToDevTo a).
Proof.
  intros net n.
  unfold publishToDevTo, bind, fetch, json, lift, ret, throw.
  destruct (net n) as [|res0].
  - intros pre p res post E _.
    apply singleton_split in E. destruct E as (_ & E & _). discriminate.
  - destruct (ok res0); simpl; [destruct (json_body res0)|];
      intros pre p res post E _; simpl in E;
      apply singleton_split in E; destruct E as (_ & E & _); discriminate.
Qed.

Lemma aborting_iteration stamp i b : aborting (iteration stamp i b).
Proof.
  unfold iteration, console_log, sleep.
  repeat first [ apply aborting_generateArticle
               | apply aborting_publishToDevTo
               | apply aborting_lift
               | apply aborting_emit; reflexivity
               | apply aborting_bind; [|intros ?]
               | progress cbv zeta ].
Qed.

Lemma aborting_loop stamp bs : forall i, aborting (loop stamp i bs).
Proof.
  induction bs as [|b bs IH]; intros i; simpl.
  - apply aborting_ret.
  - apply aborting_bind; [apply aborting_iteration | intros _; apply IH].
Qed.

Lemma aborting_main stamp : aborting (main stamp).
Proof.
  unfold main, console_log.
  repeat first [ apply aborting_loop
               | apply aborting_emit; reflexivity
               | apply aborting_bind; [|intros ?] ].
Qed.

End AbortFacts.

(** C6. A non-success status from the generation API makes
    [generateArticle] throw an error with the status and the body text; the
    run then logs that error and ends with exit code 1, and no publish
    request follows the failed generation. *)
Theorem failed_generation_aborts :
  (forall stamp b net n res,
     net n = Replied res -> ok res = false ->
     generateArticle stamp b net n =
     (Throw (Error (lit "Gemini error " ++ of_N (status res) ++ lit ": " ++
                    text_or_empty res)),
      S n, [GeminiRequest (gemini_prompt b) (Replied res)])) /\
  (forall e now net pre p res post,
     fst (run e now net) = pre ++ GeminiRequest p (Replied res) :: post ->
     ok res = false ->
     snd (run e now net) = 1 /\
     post = [ConsoleErrorThrown
               (Error (lit "Gemini error " ++ of_N (status res) ++
                       lit ": " ++ text_or_empty res))] /\
     (forall a reply, ~ In (DevToRequest a reply) post)).
Proof.
  split; [exact generateArticle_rejects|].
  intros e now net pre p res post E Hok.
  enough (X : snd (run e now net) = 1 /\
              post = [ConsoleErrorThrown (gemini_error res)]).
  { destruct X as [X1 X2]. split_all; auto.
    intros a reply. rewrite X2. intros [H | []]. discriminate. }
  revert E. unfold run.
  destruct (missing (DEVTO_API_KEY e)).
  { simpl. intros E. apply singleton_split in E.
    destruct E as (_ & E & _). discriminate. }
  destruct (missing (GEMINI_API_KEY e)).
  { simpl. intros E. apply singleton_split in E.
    destruct E as (_ & E & _). discriminate. }
  pose proof (aborting_main (stamp now) net 0%nat) as Hm.
  destruct (main (stamp now) net 0%nat) as [[[u|err] n'] d]; simpl in *.
  - intros E. destruct (Hm pre p res post E Hok) as [_ X]. discriminate.
  - intros E.
    destruct (app_eq_app _ _ _ _ E) as [l [[E1 E2] | [E1 E2]]].
    + destruct l as [|y l].
      * simpl in E2. injection E2 as E2 _. discriminate.
      * simpl in E2. injection E2 as <- ->.
        destruct (Hm pre p res l E1 Hok) as [-> X].
        injection X as ->. auto.
    + destruct l as [|y l]; simpl in E2.
      * injection E2 as E2 _. discriminate.
      * injection E2 as _ E2. destruct l; discriminate.
Qed.

(** ** Start-up *)

(** C8. With a credential absent, the script prints one line on standard
    error that names a missing credential, makes no request, and exits
    with status 1; with both absent, the line names the first one
    checked. *)
Theorem missing_credential_exits e now net :
  DEVTO_API_KEY e = None \/ GEMINI_API_KEY e = None ->
  snd (run e now net) = 1 /\
  (forall ev, In ev (fst (run e now net)) -> is_request ev = false) /\
  (exists name,
     fst (run e now net) = [ConsoleError (lit "Missing " ++ name)] /\
     ((name = lit "DEVTO_API_KEY" /\ missing (DEVTO_API_KEY e) = true) \/
      (name = lit "GEMINI_API_KEY" /\
       missing (GEMINI_API_KEY e) = true))) /\
  (DEVTO_API_KEY e = None ->
   fst (run e now net) = [ConsoleError (lit "Missing DEVTO_API_KEY")]).
Proof.
  intros H. unfold run.
  destruct (missing (DEVTO_API_KEY e)) eqn:D.
  - simpl. split_all; auto.
    + intros ev [<- | []]; reflexivity.
    + exists (lit "DEVTO_API_KEY"). split; [reflexivity | left; auto].
  - assert (G : missing (GEMINI_API_KEY e) = true).
    { destruct H as [H | H]; [rewrite H in D; discriminate|].
      rewrite H; reflexivity. }
    rewrite G. simpl. split_all; auto.
    + intros ev [<- | []]; reflexivity.
    + exists (lit "GEMINI_API_KEY"). split; [reflexivity | right; auto].
    + intros H'. rewrite H' in D. discriminate.
Qed.

(** ** The theorems at sample inputs *)

Lemma heading_gives_title_witness :
  exists h a,
    heading_text (lit "# My Title") h /\
    generateArticle may_first brief_xy
      (always (success [my_title_text])) 0%nat =
    (Ok a, 1%nat, one_request (success [my_title_text])) /\
    markdown a = my_title_text /\
    title a = h ++ lit " (2024-05-01)".
Proof.
  apply (heading_gives_title may_first brief_xy
           (always (success [my_title_text])) 0%nat
           (success [my_title_text]) (candidate_response [my_title_text])
           my_title_text); try reflexivity.
  apply (heading_text_matches _ (lit "My Title")), exec_heading_spec.
  reflexivity.
Defined.


Lemma tags_are_fixed_witness :
  tags (article_of_text may_first (lit "X") my_title_text) =
  [lit "ai"; lit "machinelearning"; lit "career"; lit "productivity";
   lit "programming"].
Proof.
  apply (tags_are_fixed may_first brief_xy
           (always (success [my_title_text])) 0%nat _ 1%nat
           (one_request (success [my_title_text]))).
  reflexivity.
Defined.

Lemma generated_title_has_stamp_witness :
  includes (lit "My Title (2024-05-01)") may_first = true /\
  ensure_stamp may_first (lit "My Title (2024-05-01)") =
  lit "My Title (2024-05-01)".
Proof.
  apply (generated_title_has_stamp may_first brief_xy
           (always (success [my_title_text])) 0%nat
           (article_of_text may_first (lit "X") my_title_text) 1%nat
           (one_request (success [my_title_text]))).
  reflexivity.
Defined.

Lemma lenient_on_missing_parts_witness :
  generateArticle may_first brief_xy (always empty_object) 0%nat =
  (Ok {| title := lit "AI & Tech " ++ [BULLET] ++ lit " X " ++ [BULLET] ++
                  lit " 2024-05-01";
         markdown := [];
         tags := fixed_tags |},
   1%nat, one_request empty_object).
Proof.
  apply (lenient_on_missing_parts may_first brief_xy (always empty_object)
           0%nat empty_object (VObj [])); try reflexivity.
  right; left; reflexivity.
Defined.

Lemma body_is_joined_fragments_witness :
  exists a,
    generateArticle may_first brief_xy
      (always (success [lit " a"; lit "b "])) 0%nat =
    (Ok a, 1%nat, one_request (success [lit " a"; lit "b "])) /\
    markdown a = lit "a" ++ [LF] ++ lit "b".
Proof.
  apply (body_is_joined_fragments may_first brief_xy
           (always (success [lit " a"; lit "b "])) 0%nat
           (success [lit " a"; lit "b "])
           (candidate_response [lit " a"; lit "b "])
           [lit " a"; lit "b "]); try reflexivity.
  apply fragments_candidate_response.
Defined.

Lemma failed_generation_aborts_witness :
  generateArticle may_first brief_xy (always quota_exceeded) 0%nat =
  (Throw (Error (lit "Gemini error 500: quota exceeded")), 1%nat,
   one_request quota_exceeded) /\
  snd (run env_ok noon second_generation_fails) = 1 /\
  skipn 9 (fst (run env_ok noon second_generation_fails)) =
  [ConsoleErrorThrown (Error (lit "Gemini error 500: quota exceeded"))] /\
  (forall a reply,
     ~ In (DevToRequest a reply)
          (skipn 9 (fst (run env_ok noon second_generation_fails)))).
Proof.
  split.
  - apply (proj1 failed_generation_aborts may_first brief_xy
             (always quota_exceeded) 0%nat quota_exceeded); reflexivity.
  - apply (proj2 failed_generation_aborts env_ok noon
             second_generation_fails
             (firstn 8 (fst (run env_ok noon second_generation_fails)))
             (gemini_prompt (nth 1 briefs brief_xy)) quota_exceeded
             (skipn 9 (fst (run env_ok noon second_generation_fails))));
      reflexivity.
Defined.

Lemma missing_credential_exits_witness :
  snd (run env_empty noon (always created)) = 1 /\
  fst (run env_empty noon (always created)) =
  [ConsoleError (lit "Missing DEVTO_API_KEY")].
Proof.
  pose proof (missing_credential_exits env_empty noon (always created)
                (or_introl eq_refl)) as (H1 & _ & _ & H4).
  split; [exact H1 | exact (H4 eq_refl)].
Defined.

(** ** The scenarios of the specification *)

(** Scenario 1: the publisher gets the stamped title and a body that ends
    with the footer. *)
Example scenario_publish :
  exists reply post,
    nth 4 (fst (run env_ok noon second_generation_fails)) (Sleep 0) =
    DevToRequest
      {| title := lit "My Title (2024-05-01)";
         markdown := my_title_text ++ footer may_first;
         tags := fixed_tags |} reply /\
    nth 5 (fst (run env_ok noon second_generation_fails)) (Sleep 0) =
    ConsoleLog post.
Proof. eexists _, _. split; reflexivity. Qed.

Example exec_heading_blank_text :
  exec_heading (lit "#  ") = Some (lit " ").
Proof. reflexivity. Qed.

Example exec_heading_two_hashes :
  exec_heading (lit "## Section") = None.
Proof. reflexivity. Qed.

Example exec_heading_carriage_return :
  exec_heading (lit "# a" ++ [CR] ++ lit "b") = None.
Proof. reflexivity. Qed.

(** * Beyond the claims *)

(** ** Every run has the shape of the loop *)

Section ShapeFacts.

Lemma iteration_shape stamp i b net n :
  iteration_trace stamp i b
    (fst (fst (iteration stamp i b net n))) (snd (iteration stamp i b net n)).
Proof.
  unfold iteration, generateArticle, publishToDevTo, console_log, sleep,
    bind, emit, fetch, json, lift, ret, throw.
  destruct (net n) as [|gres] eqn:Hg; simpl.
  { apply turn_generation_fails. constructor. }
  destruct (ok gres) eqn:Hgok; simpl.
  2:{ apply turn_generation_fails. constructor; assumption. }
  destruct (json_body gres) as [data|] eqn:Hgj; simpl.
  2:{ apply turn_generation_fails. constructor; assumption. }
  destruct (response_text data) as [text|e] eqn:Hgt; simpl.
  2:{ apply turn_generation_fails. econstructor; eassumption. }
  assert (G : generation_returns (Replied gres) text)
    by (econstructor; eassumption).
  destruct (net (S n)) as [|pres] eqn:Hp; simpl.
  { apply (turn_publish_fails stamp i b _ text _ _ G). constructor. }
  destruct (ok pres) eqn:Hpok; simpl.
  2:{ apply (turn_publish_fails stamp i b _ text _ _ G).
      constructor; assumption. }
  destruct (json_body pres) as [post|] eqn:Hpj; simpl.
  2:{ apply (turn_publish_fails stamp i b _ text _ _ G).
      constructor; assumption. }
  assert (P : publish_returns (Replied pres) post)
    by (constructor; assumption).
  destruct (post_link post) as [link|e] eqn:Hl; simpl.
  - apply (turn_done stamp i b _ text _ post link G P Hl).
  - apply (turn_link_fails stamp i b _ text _ post e G P Hl).
Qed.

Lemma loop_shape stamp bs : forall i net n,
  loop_trace stamp i bs
    (fst (fst (loop stamp i bs net n))) (snd (loop stamp i bs net n)).
Proof.
  induction bs as [|b bs IH]; intros i net n.
  - constructor.
  - cbn [loop]. unfold bind.
    pose proof (iteration_shape stamp i b net n) as Hi.
    destruct (iteration stamp i b net n) as [[[[]|e] n1] d1]; simpl in *.
    + specialize (IH (S i) net n1).
      destruct (loop stamp (S i) bs net n1) as [[r2 n2] d2]; simpl in *.
      apply loop_goes_on; assumption.
    + apply loop_stops; assumption.
Qed.

Lemma run_shape e now net :
  missing (DEVTO_API_KEY e) = false -> missing (GEMINI_API_KEY e) = false ->
  exists r d,
    loop_trace (stamp now) 0 briefs r d /\
    run e now net = run_events (stamp now) r d.
Proof.
  intros HD HG. unfold run. rewrite HD, HG.
  unfold main, console_log, bind, emit.
  pose proof (loop_shape (stamp now) briefs 0%nat net 0%nat) as Hl.
  destruct (loop (stamp now) 0 briefs net 0%nat) as [[[[]|err] n1] d1];
    simpl in *.
  - exists (Ok tt), d1. split; [assumption | reflexivity].
  - exists (Throw err), d1. split; [assumption | reflexivity].
Qed.

End ShapeFacts.

(** ** A failed request is the last thing a run does *)

Section TerminalFacts.

Lemma split_nil {A} (pre : list A) ev post : [] = pre ++ ev :: post -> False.
Proof. destruct pre; discriminate. Qed.

Lemma split_cons {A} (x : A) l pre ev post :
  x :: l = pre ++ ev :: post ->
  (pre = [] /\ x = ev /\ l = post) \/
  (exists pre', pre = x :: pre' /\ l = pre' ++ ev :: post).
Proof.
  destruct pre as [|y pre]; simpl; intros E; injection E as -> ->.
  - left; auto.
  - right; exists pre; auto.
Qed.

Lemma split_in {A} (d pre : list A) ev post :
  d = pre ++ ev :: post -> In ev d.
Proof. intros ->. apply in_elt. Qed.

Lemma generation_fails_unique reply e1 e2 :
  generation_fails reply e1 -> generation_fails reply e2 -> e1 = e2.
Proof. intros H1 H2; inversion H1; subst; inversion H2; congruence. Qed.

Lemma generation_exclusive reply text e :
  generation_returns reply text -> generation_fails reply e -> False.
Proof. intros H1 H2; inversion H1; subst; inversion H2; congruence. Qed.

Lemma publish_fails_unique reply e1 e2 :
  publish_fails reply e1 -> publish_fails reply e2 -> e1 = e2.
Proof. intros H1 H2; inversion H1; subst; inversion H2; congruence. Qed.

Lemma publish_exclusive reply post e :
  publish_returns reply post -> publish_fails reply e -> False.
Proof. intros H1 H2; inversion H1; subst; inversion H2; congruence. Qed.

Lemma iteration_generation_terminal stamp i b r d :
  iteration_trace stamp i b r d -> terminal generation_failure r d.
Proof.
  intros H pre ev post e E Hbad.
  destruct H as [greply e0 Hf | greply text preply e0 Hr Hf
                | greply text preply p e0 Hr Hp Hl
                | greply text preply p link Hr Hp Hl].
  - apply split_cons in E.
    destruct E as [(_ & <- & _) | (pre' & -> & E)]; [destruct Hbad|].
    apply split_cons in E.
    destruct E as [(_ & <- & <-) | (pre'' & -> & E)];
      [|destruct (split_nil _ _ _ E)].
    split; [reflexivity|]. f_equal.
    apply (generation_fails_unique greply); assumption.
  - exfalso. apply split_in in E. simpl in E.
    destruct E as [<- | [<- | [<- | [<- | []]]]]; simpl in Hbad; auto.
    apply (generation_exclusive _ _ _ Hr Hbad).
  - exfalso. apply split_in in E. simpl in E.
    destruct E as [<- | [<- | [<- | [<- | []]]]]; simpl in Hbad; auto.
    apply (generation_exclusive _ _ _ Hr Hbad).
  - exfalso. apply split_in in E. simpl in E.
    destruct E as [<- | [<- | [<- | [<- | [<- | [<- | []]]]]]];
      simpl in Hbad; auto.
    apply (generation_exclusive _ _ _ Hr Hbad).
Qed.

Lemma iteration_publish_terminal stamp i b r d :
  iteration_trace stamp i b r d -> terminal publish_failure r d.
Proof.
  intros H pre ev post e E Hbad.
  destruct H as [greply e0 Hf | greply text preply e0 Hr Hf
                | greply text preply p e0 Hr Hp Hl
                | greply text preply p link Hr Hp Hl].
  - exfalso. apply split_in in E. simpl in E.
    destruct E as [<- | [<- | []]]; simpl in Hbad; auto.
  - unfold turn_events in E.
    repeat (apply split_cons in E;
            destruct E as [(_ & <- & E) | (? & -> & E)];
            [try (exfalso; exact Hbad)|]).
    + subst post. split; [reflexivity|]. f_equal.
      apply (publish_fails_unique preply); assumption.
    + destruct (split_nil _ _ _ E).
  - exfalso. apply split_in in E. simpl in E.
    destruct E as [<- | [<- | [<- | [<- | []]]]]; simpl in Hbad; auto.
    apply (publish_exclusive _ _ _ Hp Hbad).
  - exfalso. apply split_in in E. simpl in E.
    destruct E as [<- | [<- | [<- | [<- | [<- | [<- | []]]]]]];
      simpl in Hbad; auto.
    apply (publish_exclusive _ _ _ Hp Hbad).
Qed.

Lemma loop_terminal bad stamp i bs r d :
  (forall i b r d, iteration_trace stamp i b r d -> terminal bad r d) ->
  loop_trace stamp i bs r d -> terminal bad r d.
Proof.
  intros Hit H. induction H as [i | i b bs e d H | i b bs d r d' H _ IH].
  - intros pre ev post e E _. destruct (split_nil _ _ _ E).
  - apply (Hit _ _ _ _ H).
  - intros pre ev post e E Hbad.
    destruct (app_eq_app _ _ _ _ E) as [l [[E1 E2] | [E1 E2]]].
    + destruct l as [|y l]; simpl in E2.
      * apply (IH [] ev post e); auto.
      * injection E2 as <- ->.
        destruct (Hit _ _ _ _ H pre ev l e E1 Hbad) as [_ X]. discriminate.
    + apply (IH l ev post e); auto.
Qed.

Lemma run_terminal bad e now net pre ev post err :
  (forall ev e, bad ev e -> is_request ev = true) ->
  (forall stamp i b r d, iteration_trace stamp i b r d -> terminal bad r d) ->
  fst (run e now net) = pre ++ ev :: post -> bad ev err ->
  snd (run e now net) = 1 /\ post = [ConsoleErrorThrown err].
Proof.
  intros Hreq Hit E Hbad. apply Hreq in Hbad as Hr.
  destruct (missing (DEVTO_API_KEY e)) eqn:HD.
  { unfold run in E. rewrite HD in E. apply split_in in E.
    destruct E as [<- | []]. discriminate. }
  destruct (missing (GEMINI_API_KEY e)) eqn:HG.
  { unfold run in E. rewrite HD, HG in E. apply split_in in E.
    destruct E as [<- | []]. discriminate. }
  destruct (run_shape e now net HD HG) as (r & d & Hl & Hrun).
  rewrite Hrun in *.
  pose proof (loop_terminal bad _ _ _ _ _ (Hit (stamp now)) Hl) as Ht.
  assert (X : forall last,
             ConsoleLog (starting_line (stamp now)) :: d ++ [last] =
             pre ++ ev :: post ->
             is_request last = false ->
             post = [last] /\ r = Throw err).
  { intros last E' Hlast. apply split_cons in E'.
    destruct E' as [(_ & <- & _) | (pre' & -> & E')]; [discriminate|].
    destruct (app_eq_app _ _ _ _ E') as [l [[E1 E2] | [E1 E2]]].
    - destruct l as [|y l]; simpl in E2.
      + injection E2 as <- _. congruence.
      + injection E2 as <- ->.
        destruct (Ht pre' ev l err E1 Hbad) as [-> ->]. auto.
    - destruct l as [|y l]; simpl in E2.
      + injection E2 as <- _. congruence.
      + injection E2 as _ E2. destruct (split_nil _ _ _ E2). }
  destruct r as [[]|e0]; simpl in *.
  - destruct (X _ E eq_refl) as [_ Y]. discriminate.
  - destruct (X _ E eq_refl) as [-> Y]. injection Y as ->. auto.
Qed.

End TerminalFacts.

(** X1. A generation that fails in any way (no response, a non-success
    status, a body that is not JSON, a [parts] that cannot be read) is
    followed by the logging of its error and by nothing else, and the exit
    code is 1. *)
Theorem failed_generation_is_terminal e now net pre p reply post err :
  fst (run e now net) = pre ++ GeminiRequest p reply :: post ->
  generation_fails reply err ->
  snd (run e now net) = 1 /\ post = [ConsoleErrorThrown err].
Proof.
  intros E H.
  apply (run_terminal generation_failure e now net pre
           (GeminiRequest p reply) post err); auto.
  - intros ev0 e0 H0; destruct ev0; simpl in H0; try contradiction;
      reflexivity.
  - intros; eapply iteration_generation_terminal; eassumption.
Qed.

(** X2. A publish request that fails (no response, a non-success status, a
    body that is not JSON) is followed by the logging of its error and by
    nothing else, and the exit code is 1: the briefs after it are not
    attempted, and what was published before stays in the trace. *)
Theorem failed_publish_is_terminal e now net pre a reply post err :
  fst (run e now net) = pre ++ DevToRequest a reply :: post ->
  publish_fails reply err ->
  snd (run e now net) = 1 /\ post = [ConsoleErrorThrown err].
Proof.
  intros E H.
  apply (run_terminal publish_failure e now net pre
           (DevToRequest a reply) post err); auto.
  - intros ev0 e0 H0; destruct ev0; simpl in H0; try contradiction;
      reflexivity.
  - intros; eapply iteration_publish_terminal; eassumption.
Qed.

(** ** What is published, and how often *)

Section CountFacts.

Lemma ensure_stamp_includes stamp t :
  includes (ensure_stamp stamp t) stamp = true.
Proof.
  unfold ensure_stamp. destruct (includes t stamp) eqn:E; [exact E|].
  apply includes_spec. exists (t ++ lit " ("), (lit ")").
  unfold stamped. rewrite <- app_assoc. reflexivity.
Qed.

Lemma ensure_footer_ends stamp md :
  ends_with (ensure_footer stamp md) (footer stamp) = true.
Proof.
  unfold ensure_footer. destruct (ends_with md (footer stamp)) eqn:E;
    [exact E|].
  apply ends_with_spec. exists md. reflexivity.
Qed.

Lemma count_app f d1 d2 : count f (d1 ++ d2) = (count f d1 + count f d2)%nat.
Proof. unfold count. rewrite filter_app, length_app. reflexivity. Qed.

Lemma count_single f ev : count f [ev] = if f ev then 1%nat else 0%nat.
Proof. unfold count; simpl. destruct (f ev); reflexivity. Qed.

Lemma generation_returns_ok reply text :
  generation_returns reply text ->
  exists res, reply = Replied res /\ ok res = true.
Proof. intros H; inversion H; subst; eauto. Qed.

Lemma publish_returns_ok reply post :
  publish_returns reply post ->
  exists res, reply = Replied res /\ ok res = true.
Proof. intros H; inversion H; subst; eauto. Qed.

Lemma iteration_publish_follows stamp i b r d pre a reply post :
  iteration_trace stamp i b r d ->
  d = pre ++ DevToRequest a reply :: post ->
  exists greply text,
    pre = [ConsoleLog (generating_line i);
           GeminiRequest (gemini_prompt b) greply;
           ConsoleLog (publishing_line (title a))] /\
    generation_returns greply text /\
    a = normalised stamp (article_of_text stamp (role b) text).
Proof.
  intros H E.
  destruct H as [greply e0 Hf | greply text preply e0 Hr Hf
                | greply text preply p e0 Hr Hp Hl
                | greply text preply p link Hr Hp Hl].
  - apply split_in in E. simpl in E.
    destruct E as [E | [E | []]]; discriminate.
  - unfold turn_events in E.
    do 3 (apply split_cons in E;
          destruct E as [(_ & E0 & _) | (? & -> & E)]; [discriminate|]).
    apply split_cons in E.
    destruct E as [(-> & E0 & _) | (? & _ & E)];
      [|destruct (split_nil _ _ _ E)].
    injection E0 as <- _. exists greply, text. auto.
  - unfold turn_events in E.
    do 3 (apply split_cons in E;
          destruct E as [(_ & E0 & _) | (? & -> & E)]; [discriminate|]).
    apply split_cons in E.
    destruct E as [(-> & E0 & _) | (? & _ & E)];
      [|destruct (split_nil _ _ _ E)].
    injection E0 as <- _. exists greply, text. auto.
  - unfold turn_events in E. simpl in E.
    do 3 (apply split_cons in E;
          destruct E as [(_ & E0 & _) | (? & -> & E)]; [discriminate|]).
    apply split_cons in E.
    destruct E as [(-> & E0 & _) | (? & _ & E)].
    + injection E0 as <- _. exists greply, text. auto.
    + do 2 (apply split_cons in E;
            destruct E as [(_ & E0 & _) | (? & _ & E)]; [discriminate|]).
      destruct (split_nil _ _ _ E).
Qed.

Lemma iteration_counts stamp i b r d :
  iteration_trace stamp i b r d ->
  count is_generation d = 1%nat /\
  (count is_publish d <= 1)%nat /\
  (forall ms, In (Sleep ms) d -> ms = 2500) /\
  (r = Ok tt ->
   count is_publish d = 1%nat /\ count is_sleep d = 1%nat /\
   Forall answered_ok d).
Proof.
  intros H. destruct H as [greply e0 Hf | greply text preply e0 Hr Hf
                          | greply text preply p e0 Hr Hp Hl
                          | greply text preply p link Hr Hp Hl];
    unfold count, turn_events; cbn [app filter is_generation is_publish
                                    is_sleep List.length];
    (split; [reflexivity|]); (split; [lia|]);
    (split;
     [intros ms Hin; simpl in Hin;
      repeat (destruct Hin as [Hin | Hin]; try discriminate);
      try contradiction; injection Hin as <-; reflexivity|]);
    try discriminate.
  intros _. split; [reflexivity|]. split; [reflexivity|].
  repeat constructor.
  - apply (generation_returns_ok _ _ Hr).
  - apply (publish_returns_ok _ _ Hp).
Qed.

Lemma loop_publish_follows stamp i bs r d :
  loop_trace stamp i bs r d ->
  forall pre a reply post,
    d = pre ++ DevToRequest a reply :: post ->
    exists pre' b greply text,
      pre = pre' ++ [GeminiRequest (gemini_prompt b) greply;
                     ConsoleLog (publishing_line (title a))] /\
      In b bs /\
      generation_returns greply text /\
      a = normalised stamp (article_of_text stamp (role b) text).
Proof.
  intros H. induction H as [i | i b bs e d H | i b bs d r d' H _ IH];
    intros pre a reply post E.
  - destruct (split_nil _ _ _ E).
  - destruct (iteration_publish_follows _ _ _ _ _ _ _ _ _ H E)
      as (greply & text & -> & Hr & Ha).
    exists [ConsoleLog (generating_line i)], b, greply, text.
    split_all; auto. left; reflexivity.
  - destruct (app_eq_app _ _ _ _ E) as [l [[E1 E2] | [E1 E2]]].
    + destruct l as [|y l]; simpl in E2.
      * destruct (IH [] a reply post (eq_sym E2))
          as (pre' & b' & greply & text & X & _).
        destruct pre'; discriminate.
      * injection E2 as <- _.
        destruct (iteration_publish_follows _ _ _ _ _ _ _ _ _ H E1)
          as (greply & text & -> & Hr & Ha).
        exists [ConsoleLog (generating_line i)], b, greply, text.
        split_all; auto. left; reflexivity.
    + destruct (IH l a reply post E2)
        as (pre' & b' & greply & text & -> & Hb & Hr & Ha).
      exists (d ++ pre'), b', greply, text.
      split_all; auto.
      * rewrite E1, app_assoc. reflexivity.
      * right; exact Hb.
Qed.

Lemma loop_counts stamp i bs r d :
  loop_trace stamp i bs r d ->
  (count is_generation d <= List.length bs)%nat /\
  (count is_publish d <= count is_generation d)%nat /\
  (count is_generation d <= count is_publish d + 1)%nat /\
  (forall ms, In (Sleep ms) d -> ms = 2500) /\
  (r = Ok tt ->
   count is_generation d = List.length bs /\
   count is_publish d = List.length bs /\
   count is_sleep d = List.length bs /\
   Forall answered_ok d).
Proof.
  intros H. induction H as [i | i b bs e d H | i b bs d r d' H _ IH].
  - unfold count; simpl. split_all; auto; try lia; try (intros ms []).
  - destruct (iteration_counts _ _ _ _ _ H) as (G & P & S & _).
    simpl. split_all; auto; try lia; try discriminate.
  - destruct (iteration_counts _ _ _ _ _ H) as (G & _ & S & K).
    destruct (K eq_refl) as (P & Z & A).
    destruct IH as (G' & P' & Q' & S' & K').
    rewrite !count_app. simpl. split_all; try lia.
    + intros ms Hin. apply in_app_or in Hin. destruct Hin; auto.
    + intros ->. destruct (K' eq_refl) as (G2 & P2 & Z2 & A2).
      split_all; try lia.
      apply Forall_app; auto.
Qed.

End CountFacts.

(** X3. Every publish request of a run comes right after a generation
    request that was answered with a success status and a readable body,
    and after the line that announces it; the article it carries is the
    one made from the text of that reply for one of the briefs, normalised:
    it has the date stamp in its title, the footer at the end of its body
    and the five fixed tags. *)
Theorem published_article_invariant e now net pre a reply post :
  fst (run e now net) = pre ++ DevToRequest a reply :: post ->
  exists pre' b res data text,
    pre = pre' ++ [GeminiRequest (gemini_prompt b) (Replied res);
                   ConsoleLog (publishing_line (title a))] /\
    In b briefs /\
    ok res = true /\ json_body res = Some data /\
    response_text data = Ok text /\
    a = normalised (stamp now)
          (article_of_text (stamp now) (role b) text) /\
    includes (title a) (stamp now) = true /\
    ends_with (markdown a) (footer (stamp now)) = true /\
    tags a = fixed_tags.
Proof.
  intros E.
  destruct (missing (DEVTO_API_KEY e)) eqn:HD.
  { unfold run in E. rewrite HD in E. apply split_in in E.
    destruct E as [E | []]; discriminate. }
  destruct (missing (GEMINI_API_KEY e)) eqn:HG.
  { unfold run in E. rewrite HD, HG in E. apply split_in in E.
    destruct E as [E | []]; discriminate. }
  destruct (run_shape e now net HD HG) as (r & d & Hl & Hrun).
  rewrite Hrun in E.
  assert (X : exists pre1 post1,
             pre = ConsoleLog (starting_line (stamp now)) :: pre1 /\
             d = pre1 ++ DevToRequest a reply :: post1).
  { assert (Y : forall last,
               ConsoleLog (starting_line (stamp now)) :: d ++ [last] =
               pre ++ DevToRequest a reply :: post ->
               is_request last = false ->
               exists pre1 post1,
                 pre = ConsoleLog (starting_line (stamp now)) :: pre1 /\
                 d = pre1 ++ DevToRequest a reply :: post1).
    { intros last E' Hlast. apply split_cons in E'.
      destruct E' as [(_ & E0 & _) | (pre1 & -> & E')]; [discriminate|].
      destruct (app_eq_app _ _ _ _ E') as [l [[E1 E2] | [E1 E2]]].
      - destruct l as [|y l]; simpl in E2.
        + injection E2 as E2 _. subst last. discriminate Hlast.
        + injection E2 as <- _. exists pre1, l. auto.
      - destruct l as [|y l]; simpl in E2.
        + injection E2 as E2 _. subst last. discriminate Hlast.
        + injection E2 as _ E2. destruct (split_nil _ _ _ E2). }
    destruct r; simpl in E; apply (Y _ E); reflexivity. }
  destruct X as (pre1 & post1 & -> & Ed).
  destruct (loop_publish_follows _ _ _ _ _ Hl _ _ _ _ Ed)
    as (pre' & b & greply & text & -> & Hb & Hr & ->).
  destruct Hr as [res data text Hok Hj Ht].
  exists (ConsoleLog (starting_line (stamp now)) :: pre'), b, res, data,
    text.
  split_all; auto; simpl.
  - apply ensure_stamp_includes.
  - apply ensure_footer_ends.
Qed.

(** X4. No request is repeated: a run makes at most three generation
    requests, never more publish requests than generation requests, and
    never two generation requests more than publish requests. *)
Theorem no_retries e now net :
  (count is_generation (fst (run e now net)) <= 3)%nat /\
  (count is_publish (fst (run e now net)) <=
   count is_generation (fst (run e now net)))%nat /\
  (count is_generation (fst (run e now net)) <=
   count is_publish (fst (run e now net)) + 1)%nat.
Proof.
  destruct (missing (DEVTO_API_KEY e)) eqn:HD.
  { unfold run, count. rewrite HD. simpl. lia. }
  destruct (missing (GEMINI_API_KEY e)) eqn:HG.
  { unfold run, count. rewrite HD, HG. simpl. lia. }
  destruct (run_shape e now net HD HG) as (r & d & Hl & Hrun).
  rewrite Hrun.
  destruct (loop_counts _ _ _ _ _ Hl) as (G & P & Q & _).
  change (List.length briefs) with 3%nat in G.
  destruct r; simpl; change (?x :: d ++ ?y) with ([x] ++ d ++ y);
    rewrite !count_app, !count_single; simpl; lia.
Qed.

(** X5. Exit code 0 means that all three briefs went through: three
    generation requests and three publish requests, each answered with a
    success status, three pauses of 2500 ms, and ["All done."] as the last
    line. *)
Theorem exit_zero_means_all_published e now net :
  snd (run e now net) = 0 ->
  count is_generation (fst (run e now net)) = 3%nat /\
  count is_publish (fst (run e now net)) = 3%nat /\
  count is_sleep (fst (run e now net)) = 3%nat /\
  (forall ms, In (Sleep ms) (fst (run e now net)) -> ms = 2500) /\
  Forall answered_ok (fst (run e now net)) /\
  exists d, fst (run e now net) = d ++ [ConsoleLog (lit "All done.")].
Proof.
  intros Hz.
  destruct (missing (DEVTO_API_KEY e)) eqn:HD.
  { unfold run in Hz. rewrite HD in Hz. discriminate. }
  destruct (missing (GEMINI_API_KEY e)) eqn:HG.
  { unfold run in Hz. rewrite HD, HG in Hz. discriminate. }
  destruct (run_shape e now net HD HG) as (r & d & Hl & Hrun).
  rewrite Hrun in *.
  destruct r as [[]|err]; simpl in Hz; [|discriminate].
  destruct (loop_counts _ _ _ _ _ Hl) as (_ & _ & _ & S & K).
  destruct (K eq_refl) as (G & P & Z & A).
  change (List.length briefs) with 3%nat in *. simpl.
  change (?x :: d ++ ?y) with ([x] ++ d ++ y).
  rewrite !count_app, !count_single. simpl. split_all; try lia.
  - intros ms Hin. destruct Hin as [Hin | Hin]; [discriminate|].
    apply in_app_or in Hin.
    destruct Hin as [Hin | [Hin | []]]; [auto | discriminate].
  - constructor; [exact I|].
    apply Forall_app. split; [exact A | repeat constructor].
  - exists (ConsoleLog (starting_line (stamp now)) :: d). reflexivity.
Qed.

(** ** The limits of the leniency, and the body *)

Section PartsFacts.

Lemma generateArticle_throws stamp b net n res data e :
  net n = Replied res -> ok res = true -> json_body res = Some data ->
  response_text data = Throw e ->
  generateArticle stamp b net n =
  (Throw e, S n, [GeminiRequest (gemini_prompt b) (Replied res)]).
Proof.
  intros Hn Hok Hj Ht.
  unfold generateArticle, bind, fetch, json, lift, ret, throw.
  rewrite Hn, Hok; simpl. rewrite Hj, Ht. reflexivity.
Qed.

Lemma map_text_null items :
  Exists (fun p => nullish p = true) items -> map_text items = Throw TypeError.
Proof.
  induction 1 as [p items Hp | p items _ IH]; simpl.
  - rewrite Hp. reflexivity.
  - destruct (nullish p); [reflexivity | rewrite IH; reflexivity].
Qed.

Lemma map_text_present items :
  Forall (fun p => nullish p = false) items ->
  map_text items = Ok (map (get_field (lit "text")) items).
Proof.
  induction 1 as [|p items Hp _ IH]; simpl; [reflexivity|].
  rewrite Hp, IH. reflexivity.
Qed.

Lemma join_loose sep vs texts :
  Forall2 (fun v t => v = VStr t \/ (nullish v = true /\ t = [])) vs texts ->
  join sep vs = Ok (intercalate sep texts).
Proof.
  induction 1 as [|v t vs texts Hv Hrest IH]; [reflexivity|].
  cbn [join intercalate].
  assert (Hx : (if nullish v then Ok [] else to_string v) = Ok t).
  { destruct Hv as [-> | [Hn ->]]; [reflexivity | rewrite Hn; reflexivity]. }
  rewrite Hx. destruct Hrest; [reflexivity|].
  rewrite IH. reflexivity.
Qed.

Lemma drop_while_head p s c rest :
  drop_while p s = c :: rest -> p c = false.
Proof.
  induction s as [|x s IH]; simpl; [discriminate|].
  destruct (p x) eqn:Px; [exact IH|]. intros E; injection E as <- _. exact Px.
Qed.

Lemma drop_while_suffix p s : exists pre, s = pre ++ drop_while p s.
Proof.
  induction s as [|x s [pre IH]]; simpl; [exists []; reflexivity|].
  destruct (p x).
  - exists (x :: pre). simpl. congruence.
  - exists []. reflexivity.
Qed.

Lemma trim_no_outer_space s :
  (forall c rest, trim s = c :: rest -> is_space c = false) /\
  (forall init c, trim s = init ++ [c] -> is_space c = false).
Proof.
  unfold trim, trim_end, trim_start. set (t := drop_while is_space s).
  split.
  - intros c rest E.
    destruct (drop_while_suffix is_space (rev t)) as [pre Hpre].
    apply (f_equal (@rev _)) in Hpre.
    rewrite rev_involutive, rev_app_distr, E in Hpre. simpl in Hpre.
    apply (drop_while_head is_space s c (rest ++ rev pre)).
    exact Hpre.
  - intros init c E. apply (f_equal (@rev _)) in E.
    rewrite rev_involutive, rev_app_distr in E. simpl in E.
    apply (drop_while_head _ _ _ _ E).
Qed.

Lemma response_text_trimmed data text :
  response_text data = Ok text -> exists s, text = trim s.
Proof.
  unfold response_text.
  destruct (parts_of data) as [| | | | | items |];
    try discriminate;
    try (intros H; injection H as <-; exists []; reflexivity).
  destruct (map_text items) as [texts|]; [|discriminate].
  destruct (join [LF] texts) as [joined|]; [|discriminate].
  intros H; injection H as <-. exists joined. reflexivity.
Qed.

End PartsFacts.

(** X6. The leniency stops at a [parts] that is there: when it is no array,
    or an array with a [null] in it, [generateArticle] throws a
    [TypeError] after its request. *)
Theorem strict_on_malformed_parts stamp b net n res data :
  net n = Replied res -> ok res = true -> json_body res = Some data ->
  (nullish (parts_of data) = false /\
   forall items, parts_of data <> VArr items) \/
  (exists items,
     parts_of data = VArr items /\
     Exists (fun p => nullish p = true) items) ->
  generateArticle stamp b net n =
  (Throw TypeError, S n, [GeminiRequest (gemini_prompt b) (Replied res)]).
Proof.
  intros Hn Hok Hj H.
  apply generateArticle_throws with (data := data); auto.
  unfold response_text. destruct H as [[Hnull Harr] | (items & -> & Hex)].
  - destruct (parts_of data); try discriminate; try reflexivity.
    exfalso. apply (Harr items). reflexivity.
  - rewrite (map_text_null _ Hex). reflexivity.
Qed.

(** X7. A part without [text] is no error: it contributes an empty
    fragment, and the body is the fragments joined with a line feed between
    each two and trimmed. *)
Theorem part_without_text_is_empty stamp b net n res data items texts :
  net n = Replied res -> ok res = true -> json_body res = Some data ->
  parts_of data = VArr items -> Forall2 contributes items texts ->
  exists a,
    generateArticle stamp b net n =
    (Ok a, S n, [GeminiRequest (gemini_prompt b) (Replied res)]) /\
    markdown a = trim (intercalate [LF] texts).
Proof.
  intros Hn Hok Hj Hp Hf.
  exists (article_of_text stamp (role b) (trim (intercalate [LF] texts))).
  split; [|reflexivity].
  apply generateArticle_returns with (data := data); auto.
  unfold response_text. rewrite Hp.
  rewrite map_text_present.
  - rewrite (join_loose [LF] _ texts); [reflexivity|].
    clear Hp. induction Hf as [|p t items texts [_ Hpt] _ IH];
      constructor; auto.
  - clear Hp. induction Hf as [|p t items texts [Hpn _] _ IH];
      constructor; auto.
Qed.

(** X8. The body of a generated article neither starts nor ends with white
    space. *)
Theorem body_is_trimmed stamp b net n a n' d :
  generateArticle stamp b net n = (Ok a, n', d) ->
  (forall c rest, markdown a = c :: rest -> is_space c = false) /\
  (forall init c, markdown a = init ++ [c] -> is_space c = false).
Proof.
  intros G. apply generateArticle_ok in G.
  destruct G as (res & data & text & _ & _ & _ & Ht & ->).
  destruct (response_text_trimmed _ _ Ht) as [s ->].
  apply trim_no_outer_space.
Qed.

(** ** The title of a text that opens with a heading *)

Section FirstLineFacts.

Lemma split_nonempty sep s : split sep s <> [].
Proof.
  induction s as [|c s IH]; simpl; [discriminate|].
  destruct (c =? sep); [discriminate|].
  destruct (split sep s); [contradiction | discriminate].
Qed.

Lemma first_line_cons c s :
  first_line (c :: s) = if c =? LF then [] else c :: first_line s.
Proof.
  unfold first_line. simpl. destruct (c =? LF); [reflexivity|].
  pose proof (split_nonempty LF s).
  destruct (split LF s); [contradiction | reflexivity].
Qed.

Lemma first_line_app line rest :
  ~ In LF line -> rest = [] \/ (exists r, rest = LF :: r) ->
  first_line (line ++ rest) = line.
Proof.
  intros Hno Hrest. induction line as [|c line IH]; simpl.
  - destruct Hrest as [-> | [r ->]]; [reflexivity|].
    rewrite first_line_cons. reflexivity.
  - rewrite first_line_cons.
    destruct (N.eqb_spec c LF) as [->|_]; [exfalso; apply Hno; left; auto|].
    rewrite IH; [reflexivity|]. intros H; apply Hno; right; exact H.
Qed.

End FirstLineFacts.

(** X9. A text whose first line reads [#], white space, a text [h] that
    starts and ends with something other than white space, white space
    (a carriage return, say), gets the title [h (stamp)], whatever the
    lines after it. *)
Theorem first_heading_line_is_title stamp role line rest ws1 ws2 h ws3
    x h1 h2 y :
  heading_split line ws1 ws2 h ws3 -> ~ In LF line ->
  h = x :: h1 -> is_space x = false ->
  h = h2 ++ [y] -> is_space y = false ->
  rest = [] \/ (exists r, rest = LF :: r) ->
  title (article_of_text stamp role (line ++ rest)) =
  h ++ lit " (" ++ stamp ++ lit ")".
Proof.
  intros Hs Hno Hx Sx Hy Sy Hrest.
  apply title_of_heading_text.
  rewrite (first_line_app _ _ Hno Hrest).
  apply (heading_text_trimmed line ws1 ws2 h ws3 x h1 h2 y); assumption.
Qed.

(** ** The date stamp *)

Section StampFacts.

Lemma year_reads_all y : 1000 <= y <= 9999 -> year_reads y = true.
Proof.
  intros Hy.
  assert (H : forallb (fun k => year_reads (N.of_nat k))
                (seq (N.to_nat 1000) (N.to_nat 9000)) = true)
    by (vm_compute; reflexivity).
  rewrite forallb_forall in H. specialize (H (N.to_nat y)).
  rewrite N2Nat.id in H. apply H. apply in_seq. lia.
Qed.

Lemma two_reads_all k : k <= 99 -> two_reads k = true.
Proof.
  intros Hk.
  assert (H : forallb (fun k => two_reads (N.of_nat k))
                (seq 0 (N.to_nat 100)) = true)
    by (vm_compute; reflexivity).
  rewrite forallb_forall in H. specialize (H (N.to_nat k)).
  rewrite N2Nat.id in H. apply H. apply in_seq. lia.
Qed.

Lemma year_reads_inv y :
  year_reads y = true ->
  exists a b c d,
    of_N y = [a; b; c; d] /\ number_of [a; b; c; d] 0 = Some y.
Proof.
  unfold year_reads.
  destruct (of_N y) as [|a [|b [|c [|d [|]]]]]; try discriminate.
  destruct (number_of [a; b; c; d] 0) as [v|] eqn:E; [|discriminate].
  intros H; apply N.eqb_eq in H; subst v. exists a, b, c, d. auto.
Qed.

Lemma two_reads_inv k :
  two_reads k = true ->
  exists a b, pad2 (of_N k) = [a; b] /\ number_of [a; b] 0 = Some k.
Proof.
  unfold two_reads.
  destruct (pad2 (of_N k)) as [|a [|b [|]]]; try discriminate.
  destruct (number_of [a; b] 0) as [v|] eqn:E; [|discriminate].
  intros H; apply N.eqb_eq in H; subst v. exists a, b. auto.
Qed.

End StampFacts.

(** X10. For a year of four digits, the stamp has the form [YYYY-MM-DD]
    and reads back as the year, the month counted from 1 and the day of
    the clock. *)
Theorem stamp_reads_back now :
  1000 <= utc_year now <= 9999 -> utc_month now <= 11 ->
  1 <= utc_date now <= 31 ->
  read_stamp (stamp now) =
  Some (utc_year now, utc_month now + 1, utc_date now).
Proof.
  intros Hy Hm Hd.
  destruct (year_reads_inv _ (year_reads_all _ Hy))
    as (a & b & c & d & Ey & Ny).
  destruct (two_reads_inv (utc_month now + 1)) as (m1 & m2 & Em & Nm);
    [apply two_reads_all; lia|].
  destruct (two_reads_inv (utc_date now)) as (d1 & d2 & Ed & Nd);
    [apply two_reads_all; lia|].
  unfold stamp. rewrite Ey, Em, Ed.
  change (read_stamp [a; b; c; d; 45; m1; m2; 45; d1; d2] =
          Some (utc_year now, utc_month now + 1, utc_date now)).
  unfold read_stamp. rewrite Ny, Nm, Nd. reflexivity.
Qed.

(** ** Credentials and the link of a post *)

Lemma loop_generates stamp i b bs r d :
  loop_trace stamp i (b :: bs) r d -> (1 <= count is_generation d)%nat.
Proof.
  intros H. inversion H as [| ? ? ? ? ? Hi | ? ? ? ? ? ? Hi _]; subst.
  - destruct (iteration_counts _ _ _ _ _ Hi) as (G & _). lia.
  - destruct (iteration_counts _ _ _ _ _ Hi) as (G & _).
    rewrite count_app. lia.
Qed.

(** X11. A credential that is set but empty counts as missing, the
    publishing key being checked first; with both credentials non-empty the
    run makes a generation request. *)
Theorem empty_credential_is_missing e now net :
  (DEVTO_API_KEY e = Some [] ->
   run e now net = ([ConsoleError (lit "Missing DEVTO_API_KEY")], 1)) /\
  (forall c k, DEVTO_API_KEY e = Some (c :: k) ->
     GEMINI_API_KEY e = Some [] ->
     run e now net = ([ConsoleError (lit "Missing GEMINI_API_KEY")], 1)) /\
  (forall c k c' k', DEVTO_API_KEY e = Some (c :: k) ->
     GEMINI_API_KEY e = Some (c' :: k') ->
     (1 <= count is_generation (fst (run e now net)))%nat).
Proof.
  split_all.
  - intros H. unfold run. rewrite H. reflexivity.
  - intros c k H1 H2. unfold run. rewrite H1, H2. reflexivity.
  - intros c k c' k' H1 H2.
    destruct (run_shape e now net) as (r & d & Hl & Hrun);
      [rewrite H1; reflexivity | rewrite H2; reflexivity |].
    rewrite Hrun. apply loop_generates in Hl.
    destruct r; simpl; change (?x :: d ++ ?y) with ([x] ++ d ++ y);
      rewrite !count_app; lia.
Qed.

(** X12. The link logged for a post is [String(url)] when [url] is truthy,
    so a [url] that is a non-empty string is logged as it is; when [url] is
    falsy (absent, [null], [false], [0] or empty) it is
    [String(canonical_url)] if that is truthy, and [String(id)] if it is
    not; a post with none of [url], [canonical_url] and [id], or no post
    at all, is logged as ["undefined"] and is no error. *)
Theorem post_link_falls_back :
  (forall fields,
     truthy (lookup (lit "url") fields) = true ->
     post_link (VObj fields) = to_string (lookup (lit "url") fields)) /\
  (forall fields c u,
     lookup (lit "url") fields = VStr (c :: u) ->
     post_link (VObj fields) = Ok (c :: u)) /\
  (forall fields,
     truthy (lookup (lit "url") fields) = false ->
     truthy (lookup (lit "canonical_url") fields) = true ->
     post_link (VObj fields) =
     to_string (lookup (lit "canonical_url") fields)) /\
  (forall fields,
     truthy (lookup (lit "url") fields) = false ->
     truthy (lookup (lit "canonical_url") fields) = false ->
     post_link (VObj fields) = to_string (lookup (lit "id") fields)) /\
  (forall post,
     nullish post = true \/
     (exists fields,
        post = VObj fields /\
        has_key (lit "url") fields = false /\
        has_key (lit "canonical_url") fields = false /\
        has_key (lit "id") fields = false) ->
     post_link post = Ok (lit "undefined")).
Proof.
  assert (L : forall k fields,
             has_key k fields = false -> lookup k fields = VUndefined).
  { intros k fields. induction fields as [|[k' v] fields IH]; simpl;
      [reflexivity|].
    destruct (str_eqb k' k); simpl; [discriminate | exact IH]. }
  unfold post_link, or_else, opt_field. split_all.
  - intros fields H. simpl. rewrite H, H. reflexivity.
  - intros fields c u H. simpl. rewrite H. reflexivity.
  - intros fields H1 H2. simpl. rewrite H1, H2. reflexivity.
  - intros fields H1 H2. simpl. rewrite H1, H2. reflexivity.
  - intros post [H | (fields & -> & H1 & H2 & H3)].
    + rewrite H. reflexivity.
    + simpl. rewrite (L _ _ H1), (L _ _ H2), (L _ _ H3). reflexivity.
Qed.

(** X13. Whatever the reply, [generateArticle] and [publishToDevTo] each
    make one network call and no second one: one request, with the prompt
    of the brief or with the article given, answered by the next reply of
    the network. *)
Theorem one_request_per_call stamp b a net n :
  snd (fst (generateArticle stamp b net n)) = S n /\
  snd (generateArticle stamp b net n) =
  [GeminiRequest (gemini_prompt b) (net n)] /\
  snd (fst (publishToDevTo a net n)) = S n /\
  snd (publishToDevTo a net n) = [DevToRequest a (net n)].
Proof.
  unfold generateArticle, publishToDevTo, bind, fetch, json, lift, ret,
    throw.
  destruct (net n) as [|res]; simpl; [auto|].
  destruct (ok res); simpl; [|auto].
  destruct (json_body res) as [data|]; simpl; [|auto].
  destruct (response_text data); simpl; auto.
Qed.

(** ** The further theorems at sample inputs *)

Lemma failed_generation_is_terminal_witness :
  snd (run env_ok noon (always not_json)) = 1 /\
  skipn 3 (fst (run env_ok noon (always not_json))) =
  [ConsoleErrorThrown SyntaxError].
Proof.
  apply (failed_generation_is_terminal env_ok noon (always not_json)
           (firstn 2 (fst (run env_ok noon (always not_json))))
           (gemini_prompt (nth 0 briefs brief_xy)) (Replied not_json)
           (skipn 3 (fst (run env_ok noon (always not_json))))
           SyntaxError).
  - reflexivity.
  - apply generation_not_json; reflexivity.
Defined.

Lemma failed_publish_is_terminal_witness :
  snd (run env_ok noon second_publish_fails) = 1 /\
  skipn 11 (fst (run env_ok noon second_publish_fails)) =
  [ConsoleErrorThrown
     (Error (lit "dev.to publish error 422: Validation failed"))].
Proof.
  apply (failed_publish_is_terminal env_ok noon second_publish_fails
           (firstn 10 (fst (run env_ok noon second_publish_fails)))
           second_published (Replied unprocessable)
           (skipn 11 (fst (run env_ok noon second_publish_fails)))
           (devto_error unprocessable)).
  - reflexivity.
  - apply publish_refused; reflexivity.
Defined.

Lemma published_article_invariant_witness :
  exists pre' b res data text,
    firstn 4 (fst (run env_ok noon all_goes_well)) =
    pre' ++ [GeminiRequest (gemini_prompt b) (Replied res);
             ConsoleLog (publishing_line (title first_published))] /\
    In b briefs /\
    ok res = true /\ json_body res = Some data /\
    response_text data = Ok text /\
    first_published =
    normalised (stamp noon) (article_of_text (stamp noon) (role b) text) /\
    includes (title first_published) (stamp noon) = true /\
    ends_with (markdown first_published) (footer (stamp noon)) = true /\
    tags first_published = fixed_tags.
Proof.
  apply (published_article_invariant env_ok noon all_goes_well
           (firstn 4 (fst (run env_ok noon all_goes_well)))
           first_published (Replied created)
           (skipn 5 (fst (run env_ok noon all_goes_well)))).
  reflexivity.
Defined.

Lemma exit_zero_means_all_published_witness :
  count is_generation (fst (run env_ok noon all_goes_well)) = 3%nat /\
  count is_publish (fst (run env_ok noon all_goes_well)) = 3%nat /\
  count is_sleep (fst (run env_ok noon all_goes_well)) = 3%nat /\
  (forall ms, In (Sleep ms) (fst (run env_ok noon all_goes_well)) ->
     ms = 2500) /\
  Forall answered_ok (fst (run env_ok noon all_goes_well)) /\
  exists d,
    fst (run env_ok noon all_goes_well) =
    d ++ [ConsoleLog (lit "All done.")].
Proof.
  apply (exit_zero_means_all_published env_ok noon all_goes_well).
  reflexivity.
Defined.

Lemma strict_on_malformed_parts_witness :
  generateArticle may_first brief_xy (always parts_is_a_string) 0%nat =
  (Throw TypeError, 1%nat, one_request parts_is_a_string).
Proof.
  apply (strict_on_malformed_parts may_first brief_xy
           (always parts_is_a_string) 0%nat parts_is_a_string
           (VObj [(lit "candidates",
                   VArr [VObj [(lit "content",
                                VObj [(lit "parts",
                                       VStr (lit "text"))])]])]));
    try reflexivity.
  left. split; [reflexivity|]. intros items H. discriminate.
Defined.

Lemma part_without_text_is_empty_witness :
  exists a,
    generateArticle may_first brief_xy (always part_without_text) 0%nat =
    (Ok a, 1%nat, one_request part_without_text) /\
    markdown a = lit "a".
Proof.
  apply (part_without_text_is_empty may_first brief_xy
           (always part_without_text) 0%nat part_without_text
           (VObj [(lit "candidates",
                   VArr [VObj [(lit "content",
                                VObj [(lit "parts",
                                       VArr [VObj [(lit "text",
                                                    VStr (lit "a"))];
                                             VObj []])])]])])
           [VObj [(lit "text", VStr (lit "a"))]; VObj []]
           [lit "a"; []]); try reflexivity.
  constructor; [split; [reflexivity | left; reflexivity]|].
  constructor; [split; [reflexivity | right; split; reflexivity]|].
  constructor.
Defined.

Lemma body_is_trimmed_witness :
  (forall c rest, lit "a" ++ [LF] ++ lit "b" = c :: rest ->
     is_space c = false) /\
  (forall init c, lit "a" ++ [LF] ++ lit "b" = init ++ [c] ->
     is_space c = false).
Proof.
  apply (body_is_trimmed may_first brief_xy
           (always (success [lit " a"; lit "b "])) 0%nat
           (article_of_text may_first (lit "X")
              (lit "a" ++ [LF] ++ lit "b"))
           1%nat (one_request (success [lit " a"; lit "b "]))).
  reflexivity.
Defined.

Lemma first_heading_line_is_title_witness :
  title (article_of_text may_first (lit "X") crlf_text) =
  lit "Title (2024-05-01)".
Proof.
  apply (first_heading_line_is_title may_first (lit "X")
           (lit "# Title" ++ [CR]) (LF :: lit "Body")
           [] [SPACE] (lit "Title") [CR] 84 (lit "itle") (lit "Titl") 101);
    try reflexivity.
  - unfold heading_split. split_all; try reflexivity; try discriminate;
      repeat constructor.
  - intros H. vm_compute in H.
    repeat (destruct H as [H | H]; [discriminate|]). exact H.
  - right. exists (lit "Body"). reflexivity.
Defined.

Lemma stamp_reads_back_witness :
  read_stamp (lit "2024-05-01") = Some (2024, 5, 1).
Proof.
  apply (stamp_reads_back noon); simpl; lia.
Defined.

Lemma empty_credential_is_missing_witness :
  run env_blank_devto noon (always created) =
  ([ConsoleError (lit "Missing DEVTO_API_KEY")], 1) /\
  run env_blank_gemini noon (always created) =
  ([ConsoleError (lit "Missing GEMINI_API_KEY")], 1) /\
  (1 <= count is_generation (fst (run env_ok noon all_goes_well)))%nat.
Proof.
  split_all.
  - apply (proj1 (empty_credential_is_missing env_blank_devto noon
                    (always created))).
    reflexivity.
  - apply (proj1 (proj2 (empty_credential_is_missing env_blank_gemini noon
                           (always created)))
             100 (lit "evto-key")); reflexivity.
  - apply (proj2 (proj2 (empty_credential_is_missing env_ok noon
                           all_goes_well))
             100 (lit "evto-key") 103 (lit "emini-key")); reflexivity.
Defined.

Lemma post_link_falls_back_witness :
  post_link (VObj [(lit "url", VNum (lit "5"));
                   (lit "canonical_url", VStr (lit "https://c/d"))]) =
  Ok (lit "5") /\
  post_link (VObj [(lit "id", VNum (lit "7"));
                   (lit "url", VStr (lit "https://dev.to/a/b"))]) =
  Ok (lit "https://dev.to/a/b") /\
  post_link (VObj [(lit "url", VStr []);
                   (lit "canonical_url", VStr (lit "https://c/d"))]) =
  Ok (lit "https://c/d") /\
  post_link (VObj [(lit "url", VNull); (lit "id", VNum (lit "7"))]) =
  Ok (lit "7") /\
  post_link (VObj [(lit "status", VNum (lit "201"))]) =
  Ok (lit "undefined").
Proof.
  split_all.
  - apply (proj1 post_link_falls_back
             [(lit "url", VNum (lit "5"));
              (lit "canonical_url", VStr (lit "https://c/d"))]).
    reflexivity.
  - apply (proj1 (proj2 post_link_falls_back)
             [(lit "id", VNum (lit "7"));
              (lit "url", VStr (lit "https://dev.to/a/b"))]
             104 (lit "ttps://dev.to/a/b")).
    reflexivity.
  - apply (proj1 (proj2 (proj2 post_link_falls_back))
             [(lit "url", VStr []);
              (lit "canonical_url", VStr (lit "https://c/d"))]);
      reflexivity.
  - apply (proj1 (proj2 (proj2 (proj2 post_link_falls_back)))
             [(lit "url", VNull); (lit "id", VNum (lit "7"))]);
      reflexivity.
  - apply (proj2 (proj2 (proj2 (proj2 post_link_falls_back)))
             (VObj [(lit "status", VNum (lit "201"))])).
    right. exists [(lit "status", VNum (lit "201"))].
    split_all; reflexivity.
Defined.
